(** * rl_utils: replay buffer, return smoothing, training drivers and
      advantage estimation

    A shallow embedding of [rl_utils.py] and the properties of its
    functions.  Python integers are [Z], Python lists, tuples, deques and
    one-dimensional numpy arrays are [list]s, exceptions are the [Raise]
    outcome of a [result].  The code is embedded over any type carrying
    the arithmetic operations it uses ([Num]); IEEE binary64, the format
    of Python's [float], is one such type, the rationals are another.
    Every fact about the arithmetic that a proof needs is a hypothesis of
    that proof, and holds of the IEEE formats, infinities and NaN
    included. *)

From Stdlib Require Import ZArith QArith Qcanon Lia.
From Stdlib Require SpecFloat.
From stdpp Require Import base numbers list gmap.

Local Open Scope Z_scope.

(** ** Outcomes of Python calls *)

Inductive exn : Set :=
| ValueError
| IndexError
| OverflowError.

Inductive result (A : Type) : Type :=
| Ok (a : A)
| Raise (e : exn).

Arguments Ok {A} a.
Arguments Raise {A} e.

(** An exception raised by a call is raised by the whole sequence. *)
#[global] Instance result_ret : MRet result := λ A a, Ok a.
#[global] Instance result_bind : MBind result := λ A B k r,
  match r with
  | Ok a => k a
  | Raise e => Raise e
  end.
#[global] Instance result_fmap : FMap result := λ A B f r,
  match r with
  | Ok a => Ok (f a)
  | Raise e => Raise e
  end.

(** A run of a call that loops: [None] when the step budget is used up
    before the loop ends, otherwise the value returned or the exception
    raised. *)
Definition run (X : Type) : Type := option (result X).

(** ** [collections.deque] with a [maxlen] *)

(** [sys.maxsize], the largest [Py_ssize_t] of a 64-bit build. *)
Definition ssize_max : Z := 9223372036854775807.

Module Deque.
Section Deque.
Context {T : Type}.

(** A bounded deque: its bound and its items, oldest first. *)
Record deque : Type := Build { maxlen : Z; items : list T }.

(** [collections.deque(maxlen=n)] for an integer [n].  The bound is
    first converted to a [Py_ssize_t], which fails with
    [OverflowError] outside [-sys.maxsize-1 .. sys.maxsize]; a
    negative bound is then refused with [ValueError] ("maxlen must be
    non-negative"); every other one is accepted, zero included. *)
Definition new (n : Z) : result deque :=
  if bool_decide (- ssize_max - 1 ≤ n ≤ ssize_max) then
    if n <? 0 then Raise ValueError
    else Ok {| maxlen := n; items := [] |}
  else Raise OverflowError.

(** [d.append(x)]: the item goes to the right end, and when the deque
    then holds more than [maxlen] items the leftmost one is dropped. *)
Definition append (d : deque) (x : T) : deque :=
  let items' := items d ++ [x] in
  {| maxlen := maxlen d;
     items := if maxlen d <? Z.of_nat (length items')
              then drop 1 items' else items' |}.

(** [len(d)] *)
Definition len (d : deque) : Z := Z.of_nat (length (items d)).

(** A run of [append] calls, one per item of [l], in order. *)
Definition append_all (d : deque) (l : list T) : deque := foldl append d l.
End Deque.
Arguments deque : clear implicits.
End Deque.

(** ** The [random] module *)

(** The generator behind [random]: [randbelow n g] is the library's
    [_randbelow(n)], a draw together with the generator's next state. *)
Class RandomSource (G : Type) : Type :=
  randbelow : nat → G → nat * G.

(** What the library promises of [_randbelow(n)] for a positive [n]: a
    draw in [0 .. n-1]. *)
Definition randbelow_in_range (G : Type) `{!RandomSource G} : Prop :=
  ∀ (n : nat) (g : G), (0 < n)%nat → ((randbelow n g).1 < n)%nat.

(** The generator after [m] draws below [n]. *)
Fixpoint after_draws {G : Type} `{!RandomSource G} (n m : nat) (g : G) : G :=
  match m with
  | O => g
  | S m' => after_draws n m' (randbelow n g).2
  end.

(** A generator that leaves no value out: from every state, each value
    below [n] is drawn within [budget] draws below [n]. *)
Definition randbelow_covers (G : Type) `{!RandomSource G}
    (n budget : nat) : Prop :=
  ∀ (g : G) (v : nat), (v < n)%nat →
    ∃ m : nat, (m < budget)%nat ∧ (randbelow n (after_draws n m g)).1 = v.

Module Random.
Section Random.
Context {G : Type} `{!RandomSource G} {T : Type}.

(** [setsize = 21; if k > 5: setsize += 4 ** _ceil(_log(k * 3, 4))]:
    the population size up to which [random.sample] selects from a
    pool.  The ceiling of the base-4 logarithm is half the ceiling of
    the base-2 logarithm, rounded up; [k * 3] is no power of 4, and
    the library's floating-point logarithm has this ceiling for every
    [k] below 2^40. *)
Definition setsize (k : Z) : Z :=
  if 5 <? k then 21 + 4 ^ ((Z.log2_up (k * 3) + 1) `div` 2) else 21.

(** The selection from a pool, for [n <= setsize]:
    [for i in range(k): j = randbelow(n-i); result[i] = pool[j];
     pool[j] = pool[n-i-1]].  [todo] counts the iterations left. *)
Fixpoint select (todo i n : nat) (pool : list T) (g : G)
  : result (list T) * G :=
  match todo with
  | O => (Ok [], g)
  | S todo' =>
      let '(j, g1) := randbelow (n - i)%nat g in
      match pool !! j, pool !! (n - i - 1)%nat with
      | Some x, Some y =>
          let '(r, g2) := select todo' (S i) n (<[j := y]> pool) g1 in
          (cons x <$> r, g2)
      | _, _ => (Raise IndexError, g1)
      end
  end.

(** [while j in selected: j = randbelow(n)]: the draw [j] is replaced
    until it is a position not selected yet; [fuel] bounds the
    redraws. *)
Fixpoint redraw (fuel n : nat) (selected : gset nat) (j : nat) (g : G)
  : option (nat * G) :=
  if decide (j ∈ selected) then
    match fuel with
    | O => None
    | S fuel' =>
        let '(j', g') := randbelow n g in redraw fuel' n selected j' g'
    end
  else Some (j, g).

(** The selection with a set of selected positions, for
    [n > setsize]:
    [for i in range(k): j = randbelow(n);
     while j in selected: j = randbelow(n);
     selected_add(j); result[i] = population[j]]. *)
Fixpoint select_set (fuel todo n : nat) (population : list T)
    (selected : gset nat) (g : G) : run (list T) * G :=
  match todo with
  | O => (Some (Ok []), g)
  | S todo' =>
      let '(j, g1) := randbelow n g in
      match redraw fuel n selected j g1 with
      | None => (None, g1)
      | Some (j, g2) =>
          match population !! j with
          | Some x =>
              let '(r, g3) :=
                select_set fuel todo' n population ({[j]} ∪ selected) g2 in
              (match r with
               | Some r => Some (cons x <$> r)
               | None => None
               end, g3)
          | None => (Some (Raise IndexError), g2)
          end
      end
  end.

(** [random.sample(population, k)], the library routine behind
    [ReplayBuffer.sample]: a [k] outside [0 .. len(population)] is
    refused ("Sample larger than population or is negative") before
    anything is drawn; otherwise [k] items are selected, from a copy of
    the population ([pool = list(population)]) when it has no more
    than [setsize] items, and by drawing positions into a set when it
    has more.  [fuel] bounds the redraws of each selection of the
    second kind. *)
Definition sample (fuel : nat) (population : list T) (k : Z) (g : G)
  : run (list T) * G :=
  let n := length population in
  if bool_decide (0 ≤ k ≤ Z.of_nat n) then
    if bool_decide (Z.of_nat n ≤ setsize k) then
      let '(r, g') := select (Z.to_nat k) 0 n population g in (Some r, g')
    else select_set fuel (Z.to_nat k) n population ∅ g
  else (Some (Raise ValueError), g).
End Random.
End Random.

(** ** ReplayBuffer *)

Module ReplayBuffer.
Section ReplayBuffer.
Context {State Action Reward Done : Type}.

(** A stored transition, the tuple that [add] builds. *)
Definition Transition : Type := State * Action * Reward * State * Done.

(** What [sample] returns: states, actions, rewards, next states and
    done flags. *)
Definition Batch : Type :=
  list State * list Action * list Reward * list State * list Done.

(** The object: its only attribute is [self.buffer].  A method takes
    the object and returns it as the call leaves it, next to what the
    call returns. *)
Record t : Type := Build { buffer : Deque.deque Transition }.

Definition __init__ (capacity : Z) : result t :=
  b ← Deque.new capacity; Ok {| buffer := b |}.

Definition add (self : t) (state : State) (action : Action)
    (reward : Reward) (next_state : State) (done : Done) : t :=
  {| buffer := Deque.append (buffer self)
                 (state, action, reward, next_state, done) |}.

(** [size] returns the length, with the object as the call leaves
    it. *)
Definition size (self : t) : Z * t := (Deque.len (buffer self), self).

(** [state, action, reward, next_state, done = zip( *transitions)]:
    with no transition at all [zip] yields nothing and the unpacking
    into five names fails. *)
Definition unzip5 (transitions : list Transition) : result Batch :=
  match transitions with
  | [] => Raise ValueError
  | _ => Ok ((λ x, x.1.1.1.1) <$> transitions,
             (λ x, x.1.1.1.2) <$> transitions,
             (λ x, x.1.1.2) <$> transitions,
             (λ x, x.1.2) <$> transitions,
             (λ x, x.2) <$> transitions)
  end.

(** [sample] reads [self.buffer] and draws from the generator; the
    object and the generator are returned with the outcome.  [fuel] is
    the budget of [random.sample]. *)
Definition sample {G : Type} `{!RandomSource G} (fuel : nat)
    (self : t) (batch_size : Z) (g : G) : run Batch * t * G :=
  let '(transitions, g') :=
    Random.sample fuel (Deque.items (buffer self)) batch_size g in
  (match transitions with
   | Some r => Some (r ≫= unzip5)
   | None => None
   end, self, g').

(** The retained transitions, oldest first. *)
Definition contents (self : t) : list Transition :=
  Deque.items (buffer self).

(** A run of [add] calls, one per transition of [ts], in order. *)
Definition add_all (self : t) (ts : list Transition) : t :=
  foldl (λ rb '(s, a, r, s', d), add rb s a r s' d) self ts.
End ReplayBuffer.
Arguments t : clear implicits.
Arguments Transition : clear implicits.
Arguments Batch : clear implicits.
End ReplayBuffer.

(** ** Numbers *)

(** The arithmetic the code performs on its floating-point data. *)
Class Num (A : Type) : Type := {
  zero : A;
  add : A → A → A;
  sub : A → A → A;
  mul : A → A → A;
  div : A → A → A;
  (** the promotion of a Python [int] *)
  of_int : Z → A;
}.

(** [torch.tensor(x, dtype=torch.float)] on one entry: the conversion to
    the tensor's 32-bit format. *)
Class TensorFloat (A : Type) : Type :=
  tensor_float : A → A.

(** The tests on numbers that the statements below use: Python's [==]
    and [math.isfinite]. *)
Class NumTests (A : Type) : Type := {
  num_eqb : A → A → bool;
  isfinite : A → bool;
}.

(** [x == y] holds, and [x] is neither an infinity nor NaN. *)
Definition num_eq {A : Type} `{!NumTests A} (x y : A) : Prop :=
  num_eqb x y = true.
Definition finite {A : Type} `{!NumTests A} (x : A) : Prop :=
  isfinite x = true.

Infix "≈" := num_eq (at level 70, no associativity).

(** What the proofs about [compute_advantage] use of the arithmetic: how
    the zeros multiply and add, and that the conversion to the tensor's
    format keeps them.  The numbers that are no zeros may be rounded in
    any way, and infinities and NaN may behave as in IEEE 754. *)
Record zero_laws (A : Type) `{!Num A} `{!TensorFloat A} `{!NumTests A}
  : Prop := {
  zero_is_zero : zero ≈ zero;
  zeros_equal (x y : A) : x ≈ zero → y ≈ zero → x ≈ y;
  zero_finite (x : A) : x ≈ zero → finite x;
  finite_self (x : A) : finite x → x ≈ x;
  mul_zero_finite (c x : A) : c ≈ zero → finite x → mul c x ≈ zero;
  add_zero_l (z d : A) :
    z ≈ zero → d ≈ d → add z d = d ∨ (d ≈ zero ∧ add z d ≈ zero);
  tensor_float_zero (x : A) : x ≈ zero → tensor_float x ≈ zero;
}.

(** ** The numpy calls of [moving_average] *)

Module Numpy.
Section Numpy.
Context {A : Type} `{!Num A}.

(** Python's adjustment of a slice bound for a positive step: a
    negative bound counts from the end, and the outcome is clipped to
    [0 .. n]. *)
Definition clip (n : nat) (i : Z) : nat :=
  Z.to_nat (if i <? 0 then Z.max 0 (i + Z.of_nat n) else Z.min i (Z.of_nat n)).

(** [x[i:]] *)
Definition slice_from {X : Type} (x : list X) (i : Z) : list X :=
  drop (clip (length x) i) x.

(** [x[:j]] *)
Definition slice_to {X : Type} (x : list X) (j : Z) : list X :=
  take (clip (length x) j) x.

(** [x[::2]] *)
Fixpoint slice_step2 {X : Type} (x : list X) : list X :=
  match x with
  | [] => []
  | [v] => [v]
  | v :: _ :: x' => v :: slice_step2 x'
  end.

(** [x[:j:-1]]: from the last item down to, and without, the one at
    the adjusted bound, which for a negative step is clipped to
    [-1 .. n-1]. *)
Definition slice_rev_to {X : Type} (x : list X) (j : Z) : list X :=
  let n := Z.of_nat (length x) in
  let stop := if j <? 0 then Z.max (-1) (j + n) else Z.min j (n - 1) in
  reverse (drop (Z.to_nat (stop + 1)) x).

(** [x[::-1]] *)
Definition slice_rev {X : Type} (x : list X) : list X := reverse x.

(** [np.insert(arr, obj, value)] for a position [obj] inside the
    array (the code inserts at 0). *)
Definition insert (arr : list A) (obj : nat) (value : A) : list A :=
  take obj arr ++ value :: drop obj arr.

(** [np.cumsum]: [out[0] = x[0]], [out[i] = out[i-1] + x[i]]. *)
Fixpoint cumsum_from (acc : A) (x : list A) : list A :=
  match x with
  | [] => []
  | v :: x' => let s := add acc v in s :: cumsum_from s x'
  end.

Definition cumsum (x : list A) : list A :=
  match x with
  | [] => []
  | v :: x' => v :: cumsum_from v x'
  end.

(** [np.arange(start, stop, step)] on integers, for a positive
    [step]. *)
Definition arange (start stop step : Z) : list Z :=
  (λ i : nat, start + Z.of_nat i * step)
    <$> seq 0 (Z.to_nat ((stop - start + step - 1) `div` step)).

(** An arithmetic operator between two one-dimensional arrays: item by
    item when the lengths agree, an array of length one is stretched
    to the other's length, and any other pair of lengths is refused
    ("operands could not be broadcast together"). *)
Definition elementwise {X Y Z' : Type} (f : X → Y → Z')
    (x : list X) (y : list Y) : result (list Z') :=
  if (length x =? length y)%nat then Ok (zip_with f x y)
  else match x, y with
       | _, [v] => Ok ((λ u, f u v) <$> x)
       | [u], _ => Ok (f u <$> y)
       | _, _ => Raise ValueError
       end.

(** [x / k] for an integer [k] *)
Definition div_scalar (x : list A) (k : Z) : list A :=
  (λ u, div u (of_int k)) <$> x.

(** [x / r] for an integer array [r] *)
Definition div_ints (x : list A) (r : list Z) : result (list A) :=
  elementwise (λ u k, div u (of_int k)) x r.
End Numpy.
End Numpy.

(** ** moving_average *)

Section MovingAverage.
Context {A : Type} `{!Num A}.
Import Numpy.

Definition moving_average (a : list A) (window_size : Z)
  : result (list A) :=
  let cumulative_sum := cumsum (insert a 0 zero) in
  diff ← elementwise sub (slice_from cumulative_sum window_size)
                         (slice_to cumulative_sum (- window_size));
  let middle := div_scalar diff window_size in
  let r := arange 1 (window_size - 1) 2 in
  begin ← div_ints (slice_step2 (cumsum (slice_to a (window_size - 1)))) r;
  e ← div_ints (slice_step2 (cumsum (slice_rev_to a (- window_size)))) r;
  let end_ := slice_rev e in
  Ok (begin ++ middle ++ end_).
End MovingAverage.

(** ** compute_advantage *)

Section ComputeAdvantage.
Context {A : Type} `{!Num A} `{!TensorFloat A}.

(** One pass of the loop body: the running [advantage] is updated and
    appended to [advantage_list]. *)
Definition advantage_step (gamma lmbda : A) (st : list A * A) (delta : A)
  : list A * A :=
  let '(advantage_list, advantage) := st in
  let advantage := add (mul (mul gamma lmbda) advantage) delta in
  (advantage_list ++ [advantage], advantage).

(** [td_delta] stands for the array read off the tensor, and the list
    returned for the tensor built from [advantage_list], entry by
    entry in the tensor's format.  The arithmetic of the loop is the
    one of [A], the number type of the array's entries and of [gamma]
    and [lmbda]. *)
Definition compute_advantage (gamma lmbda : A) (td_delta : list A)
  : list A :=
  let advantage_list : list A := [] in
  let advantage := zero in
  let '(advantage_list, _) :=
    foldl (advantage_step gamma lmbda) (advantage_list, advantage)
          (Numpy.slice_rev td_delta) in
  tensor_float <$> reverse advantage_list.

(** The estimates of the loop read front to back, before they are put
    in a tensor: the estimate of a step is built from the estimate of
    the step after it, or from the initial [0.0] at the last step. *)
Fixpoint advantage_from (gamma lmbda : A) (td_delta : list A) : list A :=
  match td_delta with
  | [] => []
  | delta :: rest =>
      let later := advantage_from gamma lmbda rest in
      add (mul (mul gamma lmbda) (default zero (head later))) delta :: later
  end.
End ComputeAdvantage.

(** ** The training drivers *)

(** The batch handed to [agent.update]: the dictionary with the keys
    ['states'], ['actions'], ['next_states'], ['rewards'], ['dones']. *)
Record transition_dict (State Action Reward : Type) : Type := TransitionDict {
  states : list State;
  actions : list Action;
  next_states : list State;
  rewards : list Reward;
  dones : list bool;
}.
Arguments TransitionDict {State Action Reward}.
Arguments states {State Action Reward}.
Arguments actions {State Action Reward}.
Arguments next_states {State Action Reward}.
Arguments rewards {State Action Reward}.
Arguments dones {State Action Reward}.

(** The environment the drivers are given: [env.reset()[0]] and
    [env.step(action)], each with the environment's next state. *)
Class Environment (E State Action Reward : Type) : Type := {
  env_reset : E → State * E;
  env_step : Action → E → State * Reward * bool * E;
}.

(** The agent the drivers are given: [agent.take_action(state)] and
    [agent.update(transition_dict)], each with the agent's next state. *)
Class Agent (Ag State Action Reward : Type) : Type := {
  take_action : State → Ag → Action * Ag;
  update : transition_dict State Action Reward → Ag → Ag;
}.

(** A run of a driver is [None] when the step budget of an episode is
    used up before the environment reports [done]. *)
Definition and_then {X Y : Type} (m : run X) (k : X → run Y) : run Y :=
  match m with
  | Some (Ok x) => k x
  | Some (Raise e) => Some (Raise e)
  | None => None
  end.

(** [for _ in range(n): x = body(x)] *)
Fixpoint for_range {X : Type} (n : nat) (body : X → run X) (x : X) : run X :=
  match n with
  | O => Some (Ok x)
  | S n' => and_then (body x) (for_range n' body)
  end.

(** The length of [range(int(num_episodes/10))] for an integer
    [num_episodes]: [int] cuts the quotient towards zero, and a count
    that is not positive gives no iteration. *)
Definition episodes_per_iteration (num_episodes : Z) : nat :=
  Z.to_nat (num_episodes ÷ 10).

Section Drivers.
Context {E Ag State Action Reward : Type}.
Context `{!Num Reward} `{!Environment E State Action Reward}
        `{!Agent Ag State Action Reward}.

(** The [while not done] loop of the on-policy driver; [fuel] bounds
    the steps of the episode. *)
Fixpoint on_policy_steps (fuel : nat) (env : E) (agent : Ag)
    (state : State) (episode_return : Reward)
    (td : transition_dict State Action Reward)
  : run (E * Ag * Reward * transition_dict State Action Reward) :=
  match fuel with
  | O => None
  | S fuel' =>
      let '(action, agent) := take_action state agent in
      let '(next_state, reward, done, env) := env_step action env in
      let td := {| states := states td ++ [state];
                   actions := actions td ++ [action];
                   next_states := next_states td ++ [next_state];
                   rewards := rewards td ++ [reward];
                   dones := dones td ++ [done] |} in
      let episode_return := add episode_return reward in
      if done then Some (Ok (env, agent, episode_return, td))
      else on_policy_steps fuel' env agent next_state episode_return td
  end.

(** The body of the inner [for i_episode] loop. *)
Definition on_policy_episode (fuel : nat) (st : E * Ag * list Reward)
  : run (E * Ag * list Reward) :=
  let '(env, agent, return_list) := st in
  let episode_return := zero in
  let td := TransitionDict [] [] [] [] [] in
  let '(state, env) := env_reset env in
  and_then (on_policy_steps fuel env agent state episode_return td)
    (λ '(env, agent, episode_return, td),
       Some (Ok (env, update td agent, return_list ++ [episode_return]))).

(** [train_on_policy_agent]: the list returned, with the final
    environment and agent. *)
Definition train_on_policy_agent (fuel : nat) (env : E) (agent : Ag)
    (num_episodes : Z) : run (list Reward * E * Ag) :=
  let return_list : list Reward := [] in
  and_then
    (for_range 10
       (for_range (episodes_per_iteration num_episodes)
          (on_policy_episode fuel))
       (env, agent, return_list))
    (λ '(env, agent, return_list), Some (Ok (return_list, env, agent))).

Context {G : Type} `{!RandomSource G}.

Abbreviation Buffer := (ReplayBuffer.t State Action Reward bool).

(** The [while not done] loop of the off-policy driver; [fuel] bounds
    the steps of the episode, and the steps left are the budget of a
    call of [sample]. *)
Fixpoint off_policy_steps (fuel : nat) (minimal_size batch_size : Z)
    (env : E) (agent : Ag) (replay_buffer : Buffer) (g : G)
    (state : State) (episode_return : Reward)
  : run (E * Ag * Buffer * G * Reward) :=
  match fuel with
  | O => None
  | S fuel' =>
      let '(action, agent) := take_action state agent in
      let '(next_state, reward, done, env) := env_step action env in
      let replay_buffer :=
        ReplayBuffer.add replay_buffer state action reward next_state done in
      let episode_return := add episode_return reward in
      let continue (agent : Ag) (replay_buffer : Buffer) (g : G) :=
        if done
        then Some (Ok (env, agent, replay_buffer, g, episode_return))
        else off_policy_steps fuel' minimal_size batch_size
               env agent replay_buffer g next_state episode_return in
      let '(size, replay_buffer) := ReplayBuffer.size replay_buffer in
      if minimal_size <? size then
        match ReplayBuffer.sample fuel replay_buffer batch_size g with
        | (Some (Ok (b_s, b_a, b_r, b_ns, b_d)), replay_buffer, g) =>
            let td := {| states := b_s; actions := b_a; next_states := b_ns;
                         rewards := b_r; dones := b_d |} in
            continue (update td agent) replay_buffer g
        | (Some (Raise e), _, _) => Some (Raise e)
        | (None, _, _) => None
        end
      else continue agent replay_buffer g
  end.

(** The body of the inner [for i_episode] loop. *)
Definition off_policy_episode (fuel : nat) (minimal_size batch_size : Z)
    (st : E * Ag * Buffer * G * list Reward)
  : run (E * Ag * Buffer * G * list Reward) :=
  let '(env, agent, replay_buffer, g, return_list) := st in
  let episode_return := zero in
  let '(state, env) := env_reset env in
  and_then (off_policy_steps fuel minimal_size batch_size
              env agent replay_buffer g state episode_return)
    (λ '(env, agent, replay_buffer, g, episode_return),
       Some (Ok (env, agent, replay_buffer, g,
                 return_list ++ [episode_return]))).

(** [train_off_policy_agent]: the list returned, with the final
    environment, agent, buffer and generator. *)
Definition train_off_policy_agent (fuel : nat) (env : E) (agent : Ag)
    (num_episodes : Z) (replay_buffer : Buffer)
    (minimal_size batch_size : Z) (g : G)
  : run (list Reward * E * Ag * Buffer * G) :=
  let return_list : list Reward := [] in
  and_then
    (for_range 10
       (for_range (episodes_per_iteration num_episodes)
          (off_policy_episode fuel minimal_size batch_size))
       (env, agent, replay_buffer, g, return_list))
    (λ '(env, agent, replay_buffer, g, return_list),
       Some (Ok (return_list, env, agent, replay_buffer, g))).
End Drivers.

(** ** The formulas of the smoothing, as the specification words them *)

Section MovingAverageSpec.
Context {A : Type} `{!Num A}.

(** The cumulative sum of the first [m] items, [m > 0]. *)
Definition spec_cumulative (m : nat) (a : list A) : A :=
  match take m a with
  | [] => zero
  | v :: x => foldl add v x
  end.

(** The [k]-th entry of the running sum that starts from zero: the sum
    of the [k] first items. *)
Definition spec_running (k : nat) (a : list A) : A :=
  foldl add zero (take k a).

(** [h] edge outputs: the cumulative sums of the first 1, 3, 5, ...
    items, each divided by its odd count. *)
Definition spec_edge (h : nat) (a : list A) : list A :=
  (λ i : nat, div (spec_cumulative (2 * i + 1) a)
                  (of_int (2 * Z.of_nat i + 1)))
    <$> seq 0 h.

(** The interior outputs: the mean of each window of [w] items, as a
    difference of two running sums. *)
Definition spec_middle (a : list A) (w : Z) : list A :=
  (λ j : nat, div (sub (spec_running (j + Z.to_nat w) a)
                       (spec_running j a))
                  (of_int w))
    <$> seq 0 (length a + 1 - Z.to_nat w).

(** Leading edge, interior, and the mirrored edge of the reversed
    sequence, with [h] outputs on each edge. *)
Definition spec_moving_average_with (h : nat) (a : list A) (w : Z)
  : list A :=
  spec_edge h a ++ spec_middle a w ++ reverse (spec_edge h (reverse a)).

(** One edge output for each odd count below the window size. *)
Definition spec_moving_average (a : list A) (w : Z) : list A :=
  spec_moving_average_with (Z.to_nat ((w - 1) `div` 2)) a w.
End MovingAverageSpec.

(** ** Concrete instances, for evaluation *)

(** Rational numbers, as fractions. *)
#[global] Instance Q_Num : Num Q := {|
  zero := 0%Q;
  add := Qplus;
  sub := Qminus;
  mul := Qmult;
  div := Qdiv;
  of_int := inject_Z;
|}.

(** Rational numbers in lowest terms: the laws of a field hold there as
    equalities. *)
#[global] Instance Qc_Num : Num Qc := {|
  zero := 0%Qc;
  add := Qcplus;
  sub := Qcminus;
  mul := Qcmult;
  div := Qcdiv;
  of_int := λ k, Q2Qc (inject_Z k);
|}.

(** Exact arithmetic has nothing to round. *)
#[global] Instance Qc_TensorFloat : TensorFloat Qc := λ x, x.

(** IEEE 754 binary floating point with [prec] bits of precision and
    exponents below [emax], round to nearest even: the operations of the
    standard library's specification of floats. *)
Definition ieee_Num (prec emax : Z) : Num SpecFloat.spec_float := {|
  zero := SpecFloat.S754_zero false;
  add := SpecFloat.SFadd prec emax;
  sub := SpecFloat.SFsub prec emax;
  mul := SpecFloat.SFmul prec emax;
  div := SpecFloat.SFdiv prec emax;
  of_int := λ k, SpecFloat.binary_normalize prec emax k 0 false;
|}.

(** binary64: Python's [float]. *)
#[global] Instance binary64_Num : Num SpecFloat.spec_float := ieee_Num 53 1024.

(** The conversion of a binary64 number to binary32, the format of
    [torch.float]: a finite number is rounded to 24 bits (to an infinity
    when it is too large), zeros, infinities and NaN are kept.  The
    outcome is written as the binary64 number of the same value. *)
Definition round_to (prec emax : Z) (x : SpecFloat.spec_float)
  : SpecFloat.spec_float :=
  match x with
  | SpecFloat.S754_finite s m e => SpecFloat.binary_round prec emax s m e
  | _ => x
  end.

#[global] Instance binary64_TensorFloat : TensorFloat SpecFloat.spec_float :=
  λ x, round_to 53 1024 (round_to 24 128 x).

#[global] Instance ieee_NumTests : NumTests SpecFloat.spec_float := {|
  num_eqb := SpecFloat.SFeqb;
  isfinite := λ x,
    match x with
    | SpecFloat.S754_zero _ | SpecFloat.S754_finite _ _ _ => true
    | _ => false
    end;
|}.

#[global] Instance Qc_NumTests : NumTests Qc := {|
  num_eqb := λ x y, bool_decide (x = y);
  isfinite := λ _, true;
|}.

(** The binary64 numbers 1.0, 0.5 and 0.1, the infinity and NaN. *)
Definition float_one : SpecFloat.spec_float :=
  SpecFloat.S754_finite false 4503599627370496 (-52).
Definition float_half : SpecFloat.spec_float :=
  SpecFloat.S754_finite false 4503599627370496 (-53).
Definition float_tenth : SpecFloat.spec_float :=
  SpecFloat.S754_finite false 7205759403792794 (-56).
Definition float_inf : SpecFloat.spec_float := SpecFloat.S754_infinity false.
Definition float_nan : SpecFloat.spec_float := SpecFloat.S754_nan.

(** Three TD errors that binary32 holds exactly. *)
Definition example_float_td_delta : list SpecFloat.spec_float :=
  [float_one; SpecFloat.S754_zero true; float_half].

(** A linear congruential generator; a draw below [n] is the seed
    reduced modulo [n]. *)
Record lcg : Set := Lcg { seed : Z }.

#[global] Instance lcg_source : RandomSource lcg := λ n g,
  (Z.to_nat (seed g `mod` Z.of_nat n),
   Lcg ((seed g * 1103515245 + 12345) `mod` 2147483648)).

(** A generator that counts: its draws below [n] run through
    [0 .. n-1] again and again. *)
Record counter : Set := Counter { count : Z }.

#[global] Instance counter_source : RandomSource counter := λ n g,
  (Z.to_nat (count g `mod` Z.of_nat n), Counter (count g + 1)).

(** Three transitions over integers, and a buffer of capacity 4 that
    holds the first two of them. *)
Definition example_transitions : list (ReplayBuffer.Transition Z Z Z bool) :=
  [(1, 2, 3, 4, false); (5, 6, 7, 8, false); (9, 10, 11, 12, true)].

Definition example_buffer : ReplayBuffer.t Z Z Z bool :=
  ReplayBuffer.Build (Deque.Build 4 (take 2 example_transitions)).

(** A buffer of capacity 100 that holds thirty transitions. *)
Definition example_long_buffer : ReplayBuffer.t Z Z Z bool :=
  ReplayBuffer.Build
    (Deque.Build 100
       ((λ i : nat, (Z.of_nat i, 2 * Z.of_nat i, 1, Z.of_nat i + 1, false))
          <$> seq 0 30)).

(** Two short sequences of rationals. *)
Definition example_ones : list Q := [1%Q; 1%Q; 1%Q; 1%Q].
Definition example_ramp : list Q := [1%Q; 2%Q; 3%Q; 4%Q; 5%Q; 6%Q].

(** An environment whose episodes last three steps, each rewarded 1,
    and an agent that always takes the same action and learns nothing. *)
Record countdown : Set := Countdown { remaining : nat }.

#[global] Instance countdown_env : Environment countdown nat unit Q := {|
  env_reset := λ _, (0%nat, Countdown 3);
  env_step := λ _ e,
    (remaining e, 1%Q, (remaining e <=? 1)%nat, Countdown (remaining e - 1));
|}.

#[global] Instance idle_agent : Agent unit nat unit Q := {|
  take_action := λ _ ag, (tt, ag);
  update := λ _ ag, ag;
|}.

(** An empty buffer of capacity 100 for the transitions of that
    environment. *)
Definition example_empty_buffer : ReplayBuffer.t nat unit Q bool :=
  ReplayBuffer.Build (Deque.Build 100 []).

(** An environment whose every step ends the episode, with reward 1. *)
#[global] Instance one_step_env : Environment unit nat unit Q := {|
  env_reset := λ e, (0%nat, e);
  env_step := λ _ e, (1%nat, 1%Q, true, e);
|}.

(** The batch and the transitions of one episode of the three-step
    environment, and an empty buffer of capacity 2. *)
Definition example_episode_batch : transition_dict nat unit Q := {|
  states := [0; 3; 2]%nat;
  actions := [(); (); ()];
  next_states := [3; 2; 1]%nat;
  rewards := [1%Q; 1%Q; 1%Q];
  dones := [false; false; true];
|}.

Definition example_episode_transitions
  : list (ReplayBuffer.Transition nat unit Q bool) :=
  [(0%nat, (), 1%Q, 3%nat, false); (3%nat, (), 1%Q, 2%nat, false);
   (2%nat, (), 1%Q, 1%nat, true)].


(** * Properties *)

(** ** The bounded deque *)

Section DequeFacts.
Context {T : Type}.
Implicit Types (d : Deque.deque T) (x : T) (l : list T).

Lemma maxlen_append d x : Deque.maxlen (Deque.append d x) = Deque.maxlen d.
Proof. reflexivity. Qed.

(** Below its bound a deque grows by the appended item. *)
Lemma items_append_room d x :
  Z.of_nat (length (Deque.items d)) < Deque.maxlen d →
  Deque.items (Deque.append d x) = Deque.items d ++ [x].
Proof.
  intros Hlt. unfold Deque.append; simpl.
  rewrite length_app; simpl.
  destruct (Z.ltb_spec (Deque.maxlen d)
              (Z.of_nat (length (Deque.items d) + 1))); [lia | done].
Qed.

(** At its bound a deque drops its oldest item for the appended one. *)
Lemma items_append_full d x :
  Deque.maxlen d ≤ Z.of_nat (length (Deque.items d)) →
  Deque.items (Deque.append d x) = drop 1 (Deque.items d ++ [x]).
Proof.
  intros Hle. unfold Deque.append; simpl.
  rewrite length_app; simpl.
  destruct (Z.ltb_spec (Deque.maxlen d)
              (Z.of_nat (length (Deque.items d) + 1))); [done | lia].
Qed.

Lemma append_all_cons d x l :
  Deque.append_all d (x :: l) = Deque.append_all (Deque.append d x) l.
Proof. reflexivity. Qed.

Lemma maxlen_append_all l d :
  Deque.maxlen (Deque.append_all d l) = Deque.maxlen d.
Proof.
  revert d. induction l as [|x l IH]; intros d; [done|].
  by rewrite append_all_cons, IH.
Qed.

(** After any run of appends a deque within its bound [c] holds the
    last [c] items of what it held followed by what was appended. *)
Lemma items_append_all (c : nat) l d :
  Deque.maxlen d = Z.of_nat c →
  (length (Deque.items d) ≤ c)%nat →
  Deque.items (Deque.append_all d l)
  = drop (length (Deque.items d ++ l) - c) (Deque.items d ++ l).
Proof.
  revert d. induction l as [|x l IH]; intros d Hmax Hlen.
  - simpl. rewrite app_nil_r.
    replace (length (Deque.items d) - c)%nat with 0%nat by lia. done.
  - rewrite append_all_cons, IH; [| done |].
    + destruct (decide (length (Deque.items d) < c)%nat) as [Hroom|Hfull].
      * rewrite items_append_room by lia.
        by rewrite <- app_assoc.
      * rewrite items_append_full by lia.
        assert (drop 1 (Deque.items d ++ [x]) ++ l
                = drop 1 (Deque.items d ++ x :: l)) as ->.
        { destruct (Deque.items d); simpl; [done|].
          by rewrite !drop_0, <- app_assoc. }
        rewrite drop_drop. f_equal.
        rewrite length_drop, !length_app. simpl. lia.
    + destruct (decide (length (Deque.items d) < c)%nat) as [Hroom|Hfull].
      * rewrite items_append_room by lia. rewrite length_app. simpl. lia.
      * rewrite items_append_full by lia. rewrite length_drop, length_app.
        simpl. lia.
Qed.
End DequeFacts.

(** ** The replay buffer *)

Section ReplayBufferFacts.
Context {State Action Reward Done : Type}.
Implicit Types (rb : ReplayBuffer.t State Action Reward Done).
Implicit Types (ts : list (ReplayBuffer.Transition State Action Reward Done)).

Lemma add_all_cons rb s a r s' d ts :
  ReplayBuffer.add_all rb ((s, a, r, s', d) :: ts)
  = ReplayBuffer.add_all (ReplayBuffer.add rb s a r s' d) ts.
Proof. reflexivity. Qed.

Lemma add_all_snoc rb ts s a r s' d :
  ReplayBuffer.add_all rb (ts ++ [(s, a, r, s', d)])
  = ReplayBuffer.add (ReplayBuffer.add_all rb ts) s a r s' d.
Proof. unfold ReplayBuffer.add_all. by rewrite foldl_app. Qed.

Lemma buffer_add_all ts rb :
  ReplayBuffer.buffer (ReplayBuffer.add_all rb ts)
  = Deque.append_all (ReplayBuffer.buffer rb) ts.
Proof.
  revert rb. induction ts as [|[[[[s a] r] s'] d] ts IH]; intros rb; [done|].
  by rewrite add_all_cons, IH.
Qed.

Lemma init_ok (capacity : Z) :
  0 ≤ capacity ≤ ssize_max →
  ReplayBuffer.__init__ (State:=State) (Action:=Action) (Reward:=Reward)
    (Done:=Done) capacity
  = Ok (ReplayBuffer.Build (Deque.Build capacity [])).
Proof.
  intros Hc. unfold ReplayBuffer.__init__, Deque.new.
  rewrite bool_decide_eq_true_2 by (unfold ssize_max in *; lia).
  destruct (Z.ltb_spec capacity 0); [lia | done].
Qed.

Lemma init_negative (capacity : Z) :
  - ssize_max - 1 ≤ capacity < 0 →
  ReplayBuffer.__init__ (State:=State) (Action:=Action) (Reward:=Reward)
    (Done:=Done) capacity
  = Raise ValueError.
Proof.
  intros Hc. unfold ReplayBuffer.__init__, Deque.new.
  rewrite bool_decide_eq_true_2 by (unfold ssize_max in *; lia).
  destruct (Z.ltb_spec capacity 0); [done | lia].
Qed.

Lemma init_overflow (capacity : Z) :
  capacity < - ssize_max - 1 ∨ ssize_max < capacity →
  ReplayBuffer.__init__ (State:=State) (Action:=Action) (Reward:=Reward)
    (Done:=Done) capacity
  = Raise OverflowError.
Proof.
  intros Hc. unfold ReplayBuffer.__init__, Deque.new.
  by rewrite bool_decide_eq_false_2 by lia.
Qed.

(** What a buffer of capacity [c] holds after [ts] were added to the
    empty buffer. *)
Lemma contents_add_all_init (c : nat) ts :
  ReplayBuffer.contents
    (ReplayBuffer.add_all (ReplayBuffer.Build (Deque.Build (Z.of_nat c) [])) ts)
  = drop (length ts - c) ts.
Proof.
  unfold ReplayBuffer.contents. rewrite buffer_add_all. simpl.
  rewrite (items_append_all c); simpl; [done | done | lia].
Qed.

(** A buffer of capacity zero retains nothing, whatever is added. *)
Lemma zero_capacity_keeps_nothing ts :
  ReplayBuffer.contents
    (ReplayBuffer.add_all (ReplayBuffer.Build (Deque.Build 0 [])) ts) = [].
Proof.
  rewrite (contents_add_all_init 0), Nat.sub_0_r. apply drop_all.
Qed.

(** C1: for every capacity C > 0 (that the deque accepts, so within
    [sys.maxsize]) and every run of N > C calls of [add] on a buffer
    built with capacity C, [size()] is C and the buffer holds the last
    C transitions added, in the order of their insertion; every [add]
    made once C transitions are in drops the oldest one and puts the
    new one last. *)
Theorem replay_buffer_fifo_eviction (capacity : Z) ts :
  0 < capacity →
  capacity ≤ ssize_max →
  capacity < Z.of_nat (length ts) →
  ∃ rb0,
    ReplayBuffer.__init__ capacity = Ok rb0 ∧
    (ReplayBuffer.size (ReplayBuffer.add_all rb0 ts)).1 = capacity ∧
    ReplayBuffer.contents (ReplayBuffer.add_all rb0 ts)
    = drop (length ts - Z.to_nat capacity) ts ∧
    ∀ ts1 s a r s' d ts2,
      ts = ts1 ++ (s, a, r, s', d) :: ts2 →
      capacity ≤ Z.of_nat (length ts1) →
      ReplayBuffer.contents
        (ReplayBuffer.add (ReplayBuffer.add_all rb0 ts1) s a r s' d)
      = drop 1 (ReplayBuffer.contents (ReplayBuffer.add_all rb0 ts1))
        ++ [(s, a, r, s', d)].
Proof.
  intros Hpos Hmax Hlen. eexists. split; [apply init_ok; lia|].
  rewrite <- (Z2Nat.id capacity) at 1 2 3 by lia.
  split; [|split].
  - unfold ReplayBuffer.size, Deque.len; simpl.
    change (Deque.items (ReplayBuffer.buffer ?x)) with (ReplayBuffer.contents x).
    rewrite contents_add_all_init, length_drop. lia.
  - apply contents_add_all_init.
  - intros ts1 s a r s' d ts2 _ Hfull.
    rewrite <- (Z2Nat.id capacity) at 1 2 by lia.
    pose proof (contents_add_all_init (Z.to_nat capacity) ts1) as H1.
    pose proof (contents_add_all_init (Z.to_nat capacity)
                  (ts1 ++ [(s, a, r, s', d)])) as H2.
    rewrite add_all_snoc in H2.
    rewrite H2, H1. rewrite length_app; simpl.
    rewrite drop_app_le by lia.
    rewrite drop_drop. do 2 f_equal. lia.
Qed.

(** C5, as the code has it: building a buffer fails with the
    [ValueError] of the deque for a negative capacity from
    [-sys.maxsize-1] on, and with [OverflowError] for a capacity below
    that or above [sys.maxsize]; for every capacity from zero to
    [sys.maxsize] it succeeds and yields an empty buffer of that
    capacity. *)
Theorem replay_buffer_init_capacity (capacity : Z) :
  (- ssize_max - 1 ≤ capacity < 0 →
   ReplayBuffer.__init__ (State:=State) (Action:=Action) (Reward:=Reward)
     (Done:=Done) capacity = Raise ValueError) ∧
  (0 ≤ capacity ≤ ssize_max →
   ∃ rb, ReplayBuffer.__init__ capacity = Ok rb ∧
         ReplayBuffer.contents rb = [] ∧
         (ReplayBuffer.size rb).1 = 0 ∧
         Deque.maxlen (ReplayBuffer.buffer rb) = capacity) ∧
  (capacity < - ssize_max - 1 ∨ ssize_max < capacity →
   ReplayBuffer.__init__ (State:=State) (Action:=Action) (Reward:=Reward)
     (Done:=Done) capacity = Raise OverflowError).
Proof.
  split; [apply init_negative|]. split; [|apply init_overflow].
  intros Hc. eexists. split; [by apply init_ok | done].
Qed.

Context {G : Type} `{!RandomSource G}.

(** C6: for every buffer and every [batch_size] above [size()],
    [sample(batch_size)] raises [ValueError], and the failed call
    leaves the buffer (and the generator) as they were. *)
Theorem sample_above_size_fails (fuel : nat) rb (batch_size : Z) (g : G) :
  (ReplayBuffer.size rb).1 < batch_size →
  ReplayBuffer.sample fuel rb batch_size g = (Some (Raise ValueError), rb, g).
Proof.
  unfold ReplayBuffer.size, Deque.len, ReplayBuffer.sample, Random.sample.
  simpl. intros Hlt.
  rewrite bool_decide_eq_false_2 by lia. done.
Qed.

Lemma sample_keeps_buffer (fuel : nat) rb (batch_size : Z) (g : G) :
  (ReplayBuffer.sample fuel rb batch_size g).1.2 = rb.
Proof.
  unfold ReplayBuffer.sample.
  by destruct (Random.sample _ _ _ _) as [transitions g'].
Qed.

(** C9: for every buffer, a call of [sample] (whatever its outcome)
    or of [size] leaves the stored transitions, and so their number,
    as they were: of the methods only [add] changes the buffer. *)
Theorem sample_and_size_keep_contents (fuel : nat) rb (batch_size : Z)
    (g : G) :
  let after_sample := (ReplayBuffer.sample fuel rb batch_size g).1.2 in
  let after_size := (ReplayBuffer.size rb).2 in
  ReplayBuffer.contents after_sample = ReplayBuffer.contents rb ∧
  (ReplayBuffer.size after_sample).1 = (ReplayBuffer.size rb).1 ∧
  ReplayBuffer.contents after_size = ReplayBuffer.contents rb ∧
  (ReplayBuffer.size after_size).1 = (ReplayBuffer.size rb).1.
Proof. simpl. by rewrite sample_keeps_buffer. Qed.
End ReplayBufferFacts.

(** C1 on a buffer of capacity 2 that is given three transitions. *)
Lemma replay_buffer_fifo_eviction_witness :
  0 < 2 ∧ 2 ≤ ssize_max ∧
  2 < Z.of_nat (length example_transitions) ∧
  ∃ rb0 : ReplayBuffer.t Z Z Z bool,
    ReplayBuffer.__init__ 2 = Ok rb0 ∧
    (ReplayBuffer.size (ReplayBuffer.add_all rb0 example_transitions)).1 = 2 ∧
    ReplayBuffer.contents (ReplayBuffer.add_all rb0 example_transitions)
    = [(5, 6, 7, 8, false); (9, 10, 11, 12, true)].
Proof.
  split; [lia|]. split; [discriminate|]. split; [simpl; lia|].
  destruct (replay_buffer_fifo_eviction 2 example_transitions)
    as (rb0 & Hinit & Hsize & Hcontents & _);
    [lia | discriminate | simpl; lia |].
  exists rb0. split; [exact Hinit|]. split; [exact Hsize | exact Hcontents].
Defined.

(** Capacity zero is accepted: the buffer is built, and it is one that
    retains nothing. *)
Lemma init_capacity_zero_succeeds :
  0 ≤ 0 ∧
  ReplayBuffer.__init__ (State:=Z) (Action:=Z) (Reward:=Z) (Done:=bool) 0
  = Ok (ReplayBuffer.Build (Deque.Build 0 [])).
Proof. split; [lia | reflexivity]. Qed.

(** C5 on the capacities -1, 3 and [sys.maxsize + 1]. *)
Lemma replay_buffer_init_capacity_witness :
  (- ssize_max - 1 ≤ -1 < 0 ∧
   ReplayBuffer.__init__ (State:=Z) (Action:=Z) (Reward:=Z) (Done:=bool) (-1)
   = Raise ValueError) ∧
  (0 ≤ 3 ≤ ssize_max ∧
   ∃ rb : ReplayBuffer.t Z Z Z bool,
     ReplayBuffer.__init__ 3 = Ok rb ∧
     ReplayBuffer.contents rb = [] ∧
     (ReplayBuffer.size rb).1 = 0 ∧
     Deque.maxlen (ReplayBuffer.buffer rb) = 3) ∧
  ((ssize_max + 1 < - ssize_max - 1 ∨ ssize_max < ssize_max + 1) ∧
   ReplayBuffer.__init__ (State:=Z) (Action:=Z) (Reward:=Z) (Done:=bool)
     (ssize_max + 1)
   = Raise OverflowError).
Proof.
  split; [|split].
  - split; [unfold ssize_max; lia|].
    apply (proj1 (replay_buffer_init_capacity (-1))). unfold ssize_max; lia.
  - split; [unfold ssize_max; lia|].
    apply (proj1 (proj2 (replay_buffer_init_capacity 3))).
    unfold ssize_max; lia.
  - split; [right; lia|].
    apply (proj2 (proj2 (replay_buffer_init_capacity (ssize_max + 1)))).
    right; lia.
Defined.

(** C6 on a buffer of two transitions that is asked for three. *)
Lemma sample_above_size_fails_witness :
  (ReplayBuffer.size example_buffer).1 < 3 ∧
  ReplayBuffer.sample 0 example_buffer 3 (Lcg 7)
  = (Some (Raise ValueError), example_buffer, Lcg 7).
Proof.
  split; [reflexivity|].
  apply (sample_above_size_fails 0 example_buffer 3 (Lcg 7)). reflexivity.
Defined.

(** ** Sampling without replacement *)

Section RandomFacts.
Context {G : Type} `{!RandomSource G}.

(** The selection loop treats the items of the pool as opaque: it
    commutes with any renaming of them. *)
Lemma select_fmap {T U : Type} (f : T → U) (todo i n : nat)
    (pool : list T) (g : G) :
  Random.select todo i n (f <$> pool) g
  = (fmap (M:=list) f <$> (Random.select todo i n pool g).1,
     (Random.select todo i n pool g).2).
Proof.
  revert i pool g. induction todo as [|todo IH]; intros i pool g; [done|].
  simpl. destruct (randbelow (n - i)%nat g) as [j g1].
  rewrite !list_lookup_fmap.
  destruct (pool !! j) as [x|]; [|done].
  destruct (pool !! (n - i - 1)%nat) as [y|]; [|done].
  simpl. rewrite <- list_fmap_insert, IH.
  destruct (Random.select todo (S i) n (<[j:=y]> pool) g1) as [[r|e] g2];
    done.
Qed.

(** Taking the item at [j] out of the first [m+1] items and moving the
    item at [m] into its place leaves, in the first [m] places, the
    other items. *)
Lemma move_last_Permutation {T : Type} (l : list T) (j m : nat) (x y : T) :
  l !! j = Some x → l !! m = Some y → (j ≤ m)%nat →
  x :: take m (<[j:=y]> l) ≡ₚ take (S m) l.
Proof.
  intros Hj Hm Hle. rewrite (take_S_r l m y) by done.
  destruct (decide (j = m)) as [->|Hne].
  - rewrite take_insert_ge by lia.
    assert (x = y) as -> by congruence.
    apply Permutation_cons_append.
  - rewrite take_insert_lt by lia.
    assert (take m l !! j = Some x) as Hj'
      by (rewrite lookup_take_lt by lia; done).
    rewrite insert_take_drop by (apply lookup_lt_Some in Hj'; done).
    rewrite <- (take_drop_middle (take m l) j x) at 3 by done.
    rewrite <- !app_assoc. simpl.
    rewrite (Permutation_app_comm (drop (S j) (take m l)) [y]). simpl.
    by rewrite !Permutation_middle.
Qed.

(** On a pool of pairwise different items the loop succeeds, and what
    it selects are pairwise different items of the pool's live part. *)
Lemma select_NoDup (todo i n : nat) (pool : list nat) (g : G) :
  randbelow_in_range G →
  (todo + i ≤ n)%nat → (n ≤ length pool)%nat →
  NoDup (take (n - i) pool) →
  ∃ idx g', Random.select todo i n pool g = (Ok idx, g') ∧
            length idx = todo ∧ NoDup idx ∧
            idx ⊆ take (n - i) pool.
Proof.
  intros Hrand. revert i pool g.
  induction todo as [|todo IH]; intros i pool g Hle Hlen Hnd.
  - exists [], g. repeat split; [constructor | apply list_subseteq_nil].
  - simpl. pose proof (Hrand (n - i)%nat g ltac:(lia)) as Hj.
    destruct (randbelow (n - i)%nat g) as [j g1]. simpl in Hj.
    destruct (lookup_lt_is_Some_2 pool j ltac:(lia)) as [x Hx].
    destruct (lookup_lt_is_Some_2 pool (n - i - 1)%nat ltac:(lia)) as [y Hy].
    rewrite Hx, Hy.
    pose proof (move_last_Permutation pool j (n - i - 1) x y Hx Hy
                  ltac:(lia)) as Hperm.
    replace (S (n - i - 1)) with (n - i)%nat in Hperm by lia.
    replace (n - i - 1)%nat with (n - S i)%nat in Hperm by lia.
    rewrite <- Hperm in Hnd. apply NoDup_cons in Hnd as [Hx_out Hnd'].
    destruct (IH (S i) (<[j:=y]> pool) g1) as (idx & g' & Hsel & Hl & Hnd2 & Hsub);
      [lia | by rewrite length_insert | done |].
    rewrite Hsel. exists (x :: idx), g'. simpl.
    split; [done|]. split; [by rewrite Hl|]. split.
    + apply NoDup_cons. split; [|done]. intros Hin. apply Hx_out. by apply Hsub.
    + rewrite <- Hperm. intros z Hz.
      apply elem_of_cons in Hz as [->|Hz]; apply elem_of_cons; [by left|].
      right. by apply Hsub.
Qed.

(** The redraws end when the draw, or one of the next [fuel] draws,
    is a position not selected yet; what they end with is such a
    position, and is a draw. *)
Lemma redraw_finds (fuel n : nat) (selected : gset nat) (j : nat) (g : G) :
  (j ∉ selected ∨
   ∃ m : nat, (m < fuel)%nat ∧
              (randbelow n (after_draws n m g)).1 ∉ selected) →
  ∃ j' g', Random.redraw fuel n selected j g = Some (j', g') ∧
           (j' ∉ selected) ∧ (j' = j ∨ ∃ g0, j' = (randbelow n g0).1).
Proof.
  revert j g. induction fuel as [|fuel IH]; intros j g Hfree.
  - simpl. destruct (decide (j ∈ selected)) as [Hin|Hout].
    + destruct Hfree as [?|(m & Hm & _)]; [done | lia].
    + exists j, g. auto.
  - simpl. destruct (decide (j ∈ selected)) as [Hin|Hout];
      [|exists j, g; auto].
    destruct Hfree as [?|(m & Hm & Hdraw)]; [done|].
    destruct (randbelow n g) as [j1 g1] eqn:Hj1.
    destruct (IH j1 g1) as (j' & g' & Hre & Hj' & Horigin).
    + destruct m as [|m]; simpl in Hdraw; rewrite Hj1 in Hdraw; simpl in Hdraw.
      * by left.
      * right. exists m. split; [lia | done].
    + exists j', g'. split; [done|]. split; [done|]. right.
      destruct Horigin as [->|Horigin]; [|done].
      exists g. by rewrite Hj1.
Qed.

(** Fewer than [n] selected positions leave one below [n] free. *)
Lemma free_position (n : nat) (selected : gset nat) :
  (size selected < n)%nat → ∃ v : nat, (v < n)%nat ∧ v ∉ selected.
Proof.
  intros Hsize.
  destruct (set_choose_or_empty (set_seq 0 n ∖ selected)) as [[v Hv]|Hempty].
  - apply elem_of_difference in Hv as [Hv Hout].
    apply elem_of_set_seq in Hv. exists v. split; [lia | done].
  - assert (set_seq (C:=gset nat) 0 n ⊆ selected) as Hsub.
    { intros v Hv. destruct (decide (v ∈ selected)) as [|Hout]; [done|].
      exfalso. apply (not_elem_of_empty (C:=gset nat) v).
      rewrite <- Hempty. by apply elem_of_difference. }
    apply subseteq_size in Hsub. rewrite size_set_seq in Hsub. lia.
Qed.

(** The selection with a set succeeds when the generator draws in
    range and leaves no position out, and what it selects sits at
    pairwise different positions, none of them selected before. *)
Lemma select_set_positions {T : Type} (fuel todo n : nat)
    (population : list T) (selected : gset nat) (g : G) :
  randbelow_in_range G → randbelow_covers G n fuel →
  n = length population → (todo + size selected ≤ n)%nat →
  ∃ (idx : list nat) (chosen : list T) (g' : G),
    Random.select_set fuel todo n population selected g
    = (Some (Ok chosen), g') ∧
    length idx = todo ∧ NoDup idx ∧ (∀ v, v ∈ idx → v ∉ selected) ∧
    Some <$> chosen = (population !!.) <$> idx.
Proof.
  intros Hrand Hcover Hn. revert selected g.
  induction todo as [|todo IH]; intros selected g Hroom.
  - exists [], [], g. repeat split; [constructor | by intros v ?%elem_of_nil].
  - simpl. pose proof (Hrand n g ltac:(lia)) as Hj.
    destruct (randbelow n g) as [j g1] eqn:Hj1. simpl in Hj.
    destruct (free_position n selected ltac:(lia)) as (v & Hv & Hfree).
    destruct (Hcover g1 v Hv) as (m & Hm & Hdraw).
    destruct (redraw_finds fuel n selected j g1) as (j' & g2 & -> & Hj' & Horigin).
    { right. exists m. by rewrite Hdraw. }
    assert (j' < n)%nat as Hlt.
    { destruct Horigin as [->|[g0 ->]]; [done|]. apply Hrand. lia. }
    destruct (lookup_lt_is_Some_2 population j' ltac:(lia)) as [x Hx].
    rewrite Hx.
    destruct (IH ({[j']} ∪ selected) g2) as (idx & chosen & g' & -> & Hl & Hnd & Hout & Hch).
    { rewrite size_union, size_singleton; [lia|].
      intros w ->%elem_of_singleton. done. }
    exists (j' :: idx), (x :: chosen), g'. csimpl.
    split; [done|]. split; [by rewrite Hl|]. split; [|split].
    + apply NoDup_cons. split; [|done]. intros Hin. apply (Hout _ Hin).
      apply elem_of_union. left. by apply elem_of_singleton.
    + intros w Hw. apply elem_of_cons in Hw as [->|Hw]; [done|].
      intros Hin. apply (Hout _ Hw). apply elem_of_union. by right.
    + by rewrite Hch, Hx.
Qed.

(** [setsize] is never below the sample size: a sample of the whole
    population is selected from a pool. *)
Lemma setsize_ge (k : Z) : k ≤ Random.setsize k.
Proof.
  unfold Random.setsize. destruct (Z.ltb_spec 5 k) as [Hk|Hk]; [|lia].
  pose proof (Z.log2_up_spec (k * 3) ltac:(lia)) as [_ Hup].
  pose proof (Z.log2_up_nonneg (k * 3)) as Hnn.
  set (l := Z.log2_up (k * 3)) in *.
  assert (2 ^ l ≤ 4 ^ ((l + 1) `div` 2)) as Hpow.
  { change 4 with (2 ^ 2). rewrite <- Z.pow_mul_r by (try apply Z.div_pos; lia).
    apply Z.pow_le_mono_r; [lia|].
    pose proof (Z.div_mod (l + 1) 2 ltac:(lia)).
    pose proof (Z.mod_pos_bound (l + 1) 2 ltac:(lia)). lia. }
  lia.
Qed.

(** [random.sample] with a [k] in range, from a generator that draws
    in range and, where the positions are drawn into a set, leaves no
    position out: the items returned sit at [k] pairwise different
    positions of the population. *)
Lemma sample_positions {T : Type} (fuel : nat) (population : list T)
    (k : Z) (g : G) :
  randbelow_in_range G →
  (Random.setsize k < Z.of_nat (length population) →
   randbelow_covers G (length population) fuel) →
  0 ≤ k ≤ Z.of_nat (length population) →
  ∃ (idx : list nat) (chosen : list T) (g' : G),
    Random.sample fuel population k g = (Some (Ok chosen), g') ∧
    length idx = Z.to_nat k ∧ NoDup idx ∧
    Some <$> chosen = (population !!.) <$> idx.
Proof.
  intros Hrand Hcover Hk. unfold Random.sample.
  rewrite bool_decide_eq_true_2 by done.
  set (n := length population) in *.
  destruct (decide (Z.of_nat n ≤ Random.setsize k)) as [Hpool|Hset].
  - rewrite bool_decide_eq_true_2 by done.
    destruct (select_NoDup (Z.to_nat k) 0 n (seq 0 n) g Hrand)
      as (idx & g' & Hsel & Hl & Hnd & _);
      [lia | by rewrite length_seq | rewrite Nat.sub_0_r |].
    { rewrite take_ge by (rewrite length_seq; lia). apply NoDup_seq. }
    assert (Some <$> population = (population !!.) <$> seq 0 n) as Hpop.
    { apply list_eq. intros p. rewrite !list_lookup_fmap.
      destruct (decide (p < n)%nat) as [Hp|Hp].
      - rewrite lookup_seq_lt by done. simpl.
        destruct (lookup_lt_is_Some_2 population p Hp) as [v Hv].
        by rewrite Hv.
      - rewrite lookup_seq_ge by lia.
        rewrite lookup_ge_None_2 by (fold n; lia). done. }
    pose proof (select_fmap (T:=T) Some (Z.to_nat k) 0 n population g) as H1.
    pose proof (select_fmap (population !!.) (Z.to_nat k) 0 n (seq 0 n) g) as H2.
    rewrite <- Hpop, H1, Hsel in H2. simpl in H2.
    destruct (Random.select (Z.to_nat k) 0 n population g) as [[chosen|e] g2];
      simpl in H2; [|done].
    exists idx, chosen, g2. inversion H2; subst. done.
  - rewrite bool_decide_eq_false_2 by done.
    destruct (select_set_positions fuel (Z.to_nat k) n population ∅ g Hrand)
      as (idx & chosen & g' & Hsel & Hl & Hnd & _ & Hch);
      [apply Hcover; lia | done | rewrite size_empty; lia |].
    by exists idx, chosen, g'.
Qed.
End RandomFacts.

Section SampleFacts.
Context {State Action Reward Done : Type}.
Context {G : Type} `{!RandomSource G}.
Implicit Types (rb : ReplayBuffer.t State Action Reward Done).

Lemma unzip5_nonempty
    (ts : list (ReplayBuffer.Transition State Action Reward Done)) :
  ts ≠ [] →
  ReplayBuffer.unzip5 ts
  = Ok ((λ x, x.1.1.1.1) <$> ts, (λ x, x.1.1.1.2) <$> ts,
        (λ x, x.1.1.2) <$> ts, (λ x, x.1.2) <$> ts, (λ x, x.2) <$> ts).
Proof. by destruct ts. Qed.

(** C3: for every buffer with [size() ≥ k] and every [k > 0],
    [sample(k)] returns five collections of [k] entries each; there
    are [k] pairwise different slots of the buffer such that, at every
    index, the five entries are the components of the transition
    stored in the slot of that index.  The buffer is left as it was.
    The generator is taken to draw in range; for a buffer above the
    library's [setsize], where a slot drawn twice is drawn again, it
    is taken to leave no slot out within the budget of redraws. *)
Theorem sample_draws_distinct_slots (fuel : nat) rb (k : Z) (g : G) :
  randbelow_in_range G →
  (Random.setsize k < (ReplayBuffer.size rb).1 →
   randbelow_covers G (Z.to_nat (ReplayBuffer.size rb).1) fuel) →
  0 < k →
  k ≤ (ReplayBuffer.size rb).1 →
  ∃ (slots : list nat) states actions rewards next_states dones (g' : G),
    ReplayBuffer.sample fuel rb k g
    = (Some (Ok (states, actions, rewards, next_states, dones)), rb, g') ∧
    Z.of_nat (length slots) = k ∧ NoDup slots ∧
    Z.of_nat (length states) = k ∧ Z.of_nat (length actions) = k ∧
    Z.of_nat (length rewards) = k ∧ Z.of_nat (length next_states) = k ∧
    Z.of_nat (length dones) = k ∧
    ∀ (p slot : nat), slots !! p = Some slot →
      ∃ s a r s' d,
        ReplayBuffer.contents rb !! slot = Some (s, a, r, s', d) ∧
        states !! p = Some s ∧ actions !! p = Some a ∧
        rewards !! p = Some r ∧ next_states !! p = Some s' ∧
        dones !! p = Some d.
Proof.
  intros Hrand Hcover Hpos Hsize.
  unfold ReplayBuffer.size, Deque.len in Hsize, Hcover.
  cbn [fst] in Hsize, Hcover. rewrite Nat2Z.id in Hcover.
  destruct (sample_positions fuel (Deque.items (ReplayBuffer.buffer rb)) k g
              Hrand Hcover)
    as (idx & chosen & g' & Hsample & Hlen & Hnd & Hchosen); [lia|].
  assert (length chosen = length idx) as Hlc.
  { rewrite <- (length_fmap Some chosen), Hchosen. apply length_fmap. }
  unfold ReplayBuffer.sample. rewrite Hsample. simpl.
  rewrite unzip5_nonempty by (intros ->; simpl in Hlc; lia).
  exists idx. do 5 eexists. exists g'.
  split; [reflexivity|].
  rewrite !length_fmap. unfold ReplayBuffer.Transition in *. rewrite Hlc.
  repeat (split; [first [lia | done]|]).
  intros p slot Hp.
  assert ((Some <$> chosen) !! p
          = Some (Deque.items (ReplayBuffer.buffer rb) !! slot)) as Hcp.
  { rewrite Hchosen, list_lookup_fmap, Hp. done. }
  rewrite list_lookup_fmap in Hcp.
  destruct (chosen !! p) as [[[[[s a] r] s'] d]|] eqn:Hcp'; [|done].
  simpl in Hcp. exists s, a, r, s', d.
  unfold ReplayBuffer.contents.
  injection Hcp as Hcp.
  split; [exact (eq_sym Hcp)|].
  rewrite !list_lookup_fmap, Hcp'. done.
Qed.
End SampleFacts.

Lemma lcg_in_range : randbelow_in_range lcg.
Proof.
  intros n g Hn. unfold randbelow, lcg_source. simpl.
  pose proof (Z.mod_pos_bound (seed g) (Z.of_nat n) ltac:(lia)). lia.
Qed.

Lemma counter_in_range : randbelow_in_range counter.
Proof.
  intros n g Hn. unfold randbelow, counter_source. simpl.
  pose proof (Z.mod_pos_bound (count g) (Z.of_nat n) ltac:(lia)). lia.
Qed.

Lemma counter_after_draws (n m : nat) (g : counter) :
  after_draws n m g = Counter (count g + Z.of_nat m).
Proof.
  revert g. induction m as [|m IH]; intros [c]; simpl.
  - f_equal. lia.
  - rewrite IH. simpl. f_equal. lia.
Qed.

(** Among [n] draws below [n] of the counting generator every value
    below [n] comes up. *)
Lemma counter_covers (n : nat) : randbelow_covers counter n n.
Proof.
  intros g v Hv.
  pose proof (Z.mod_pos_bound (Z.of_nat v - count g) (Z.of_nat n) ltac:(lia))
    as Hm.
  exists (Z.to_nat ((Z.of_nat v - count g) `mod` Z.of_nat n)).
  split; [lia|].
  rewrite counter_after_draws. unfold randbelow, counter_source. simpl.
  rewrite Z2Nat.id by lia.
  rewrite Zplus_mod_idemp_r.
  replace (count g + (Z.of_nat v - count g)) with (Z.of_nat v) by lia.
  rewrite Z.mod_small by lia. apply Nat2Z.id.
Qed.

(** C3 on a buffer of thirty transitions, above [setsize]: three are
    drawn, at slots drawn into a set. *)
Lemma sample_draws_distinct_slots_witness :
  randbelow_in_range counter ∧
  (Random.setsize 3 < (ReplayBuffer.size example_long_buffer).1 →
   randbelow_covers counter
     (Z.to_nat (ReplayBuffer.size example_long_buffer).1) 30) ∧
  0 < 3 ∧ 3 ≤ (ReplayBuffer.size example_long_buffer).1 ∧
  ∃ (slots : list nat) states actions rewards next_states dones (g' : counter),
    ReplayBuffer.sample 30 example_long_buffer 3 (Counter 7)
    = (Some (Ok (states, actions, rewards, next_states, dones)),
       example_long_buffer, g') ∧
    Z.of_nat (length slots) = 3 ∧ NoDup slots ∧
    Z.of_nat (length states) = 3 ∧ Z.of_nat (length actions) = 3 ∧
    Z.of_nat (length rewards) = 3 ∧ Z.of_nat (length next_states) = 3 ∧
    Z.of_nat (length dones) = 3 ∧
    ∀ (p slot : nat), slots !! p = Some slot →
      ∃ s a r s' d,
        ReplayBuffer.contents example_long_buffer !! slot
        = Some (s, a, r, s', d) ∧
        states !! p = Some s ∧ actions !! p = Some a ∧
        rewards !! p = Some r ∧ next_states !! p = Some s' ∧
        dones !! p = Some d.
Proof.
  split; [exact counter_in_range|].
  split; [intros _; exact (counter_covers 30)|].
  split; [lia|]. split; [vm_compute; discriminate|].
  apply (sample_draws_distinct_slots 30 example_long_buffer 3 (Counter 7));
    [exact counter_in_range | intros _; exact (counter_covers 30) | lia
    | vm_compute; discriminate].
Defined.

(** ** The advantage estimates *)

Section ComputeAdvantageFacts.
Context {A : Type} `{!Num A} `{!TensorFloat A}.
Implicit Types (gamma lmbda : A) (td_delta : list A).

(** The loop over the reversed errors, then the reversal of its list,
    is the front-to-back reading. *)
Lemma advantage_loop gamma lmbda td_delta :
  foldl (advantage_step gamma lmbda) ([], zero) (reverse td_delta)
  = (reverse (advantage_from gamma lmbda td_delta),
     default zero (head (advantage_from gamma lmbda td_delta))).
Proof.
  induction td_delta as [|delta rest IH]; [done|].
  rewrite reverse_cons, foldl_app, IH. simpl.
  by rewrite reverse_cons.
Qed.

Lemma compute_advantage_from gamma lmbda td_delta :
  compute_advantage gamma lmbda td_delta
  = tensor_float <$> advantage_from gamma lmbda td_delta.
Proof.
  unfold compute_advantage, Numpy.slice_rev.
  rewrite advantage_loop. by rewrite reverse_involutive.
Qed.

Lemma length_advantage_from gamma lmbda td_delta :
  length (advantage_from gamma lmbda td_delta) = length td_delta.
Proof. induction td_delta; simpl; congruence. Qed.

Lemma advantage_from_lookup gamma lmbda td_delta (i : nat) (delta : A) :
  td_delta !! i = Some delta →
  advantage_from gamma lmbda td_delta !! i
  = Some (add (mul (mul gamma lmbda)
                 (default zero (advantage_from gamma lmbda td_delta !! S i)))
              delta).
Proof.
  revert i. induction td_delta as [|d rest IH]; intros i Hi; [done|].
  destruct i as [|i]; simpl in *.
  - injection Hi as ->. by rewrite head_lookup.
  - by apply IH.
Qed.

Context `{!NumTests A}.

(** C2, as the code has it: for every [gamma], [lmbda] and [td_delta]
    of length n the sequence returned has length n and is, entry by
    entry, the conversion to the tensor's format of the estimates
    [raw] of the loop, where [raw[n-1] = gamma * lmbda * 0.0 +
    td_delta[n-1]] and [raw[i] = gamma * lmbda * raw[i+1] +
    td_delta[i]]; where the conversion changes none of these
    estimates the sequence returned obeys this recurrence itself.
    When [gamma * lmbda * 0.0] is a zero (so [gamma * lmbda] is
    neither infinite nor NaN) and the last TD error is not NaN and is
    kept by the conversion, the last entry equals the last TD error.
    The empty input gives the empty output, and the input [[d]] gives
    the one entry [gamma * lmbda * 0.0 + d], converted. *)
Theorem compute_advantage_recurrence gamma lmbda td_delta :
  zero_laws A →
  let out := compute_advantage gamma lmbda td_delta in
  length out = length td_delta ∧
  (∃ raw : list A,
     out = tensor_float <$> raw ∧ length raw = length td_delta ∧
     (∀ (i : nat) d, td_delta !! i = Some d →
        raw !! i = Some (add (mul (mul gamma lmbda)
                                (default zero (raw !! S i))) d)) ∧
     ((∀ x, x ∈ raw → tensor_float x = x) →
      ∀ (i : nat) d, td_delta !! i = Some d →
        out !! i = Some (add (mul (mul gamma lmbda)
                                (default zero (out !! S i))) d))) ∧
  (mul (mul gamma lmbda) zero ≈ zero →
   ∀ d, last td_delta = Some d → d ≈ d → tensor_float d ≈ d →
        ∃ o, last out = Some o ∧ o ≈ d) ∧
  (td_delta = [] → out = []) ∧
  (∀ d, td_delta = [d] →
        out = [tensor_float (add (mul (mul gamma lmbda) zero) d)]).
Proof.
  intros Hlaws out. subst out.
  rewrite compute_advantage_from.
  set (raw := advantage_from gamma lmbda td_delta).
  split; [by rewrite length_fmap; apply length_advantage_from|].
  split; [|split; [|split]].
  - exists raw. split; [done|]. split; [apply length_advantage_from|].
    split; [apply advantage_from_lookup|].
    intros Hexact i d Hd.
    assert (tensor_float <$> raw = raw) as ->.
    { rewrite <- (list_fmap_id raw) at 2. apply list_fmap_ext.
      intros j x Hx. apply Hexact. by eapply list_elem_of_lookup_2. }
    by apply advantage_from_lookup.
  - intros Hzero d Hlast Hd Hkeep.
    rewrite last_lookup in Hlast.
    pose proof (advantage_from_lookup gamma lmbda td_delta _ d Hlast) as Hraw.
    fold raw in Hraw.
    rewrite (lookup_ge_None_2 raw (S _)) in Hraw
      by (unfold raw; rewrite length_advantage_from;
          apply lookup_lt_Some in Hlast; lia).
    simpl in Hraw.
    exists (tensor_float (add (mul (mul gamma lmbda) zero) d)). split.
    + rewrite last_lookup, length_fmap, list_lookup_fmap.
      unfold raw at 1. rewrite length_advantage_from. fold raw.
      by rewrite Hraw.
    + destruct (add_zero_l A Hlaws _ d Hzero Hd) as [->|[Hd0 Hadd0]]; [done|].
      apply (zeros_equal A Hlaws); [|done].
      by apply (tensor_float_zero A Hlaws).
  - by intros ->.
  - by intros d ->.
Qed.

(** The estimates of the loop when [gamma * lmbda] is a zero and the
    TD errors are finite: each is finite, and is its TD error, or a
    zero where the TD error is a zero. *)
Lemma advantage_from_zero_discount gamma lmbda td_delta :
  zero_laws A →
  mul gamma lmbda ≈ zero →
  Forall finite td_delta →
  Forall2 (λ a d, finite a ∧ (a = d ∨ (d ≈ zero ∧ a ≈ zero)))
    (advantage_from gamma lmbda td_delta) td_delta.
Proof.
  intros Hlaws Hzero Hfin.
  induction Hfin as [|d rest Hd Hrest IH]; [constructor|].
  simpl. constructor; [|done].
  assert (finite (default zero (head (advantage_from gamma lmbda rest))))
    as Hlater.
  { destruct IH as [|a d' later rest' [Ha _] _]; simpl; [|done].
    apply (zero_finite A Hlaws), (zero_is_zero A Hlaws). }
  pose proof (mul_zero_finite A Hlaws _ _ Hzero Hlater) as Hmul.
  destruct (add_zero_l A Hlaws _ d Hmul (finite_self A Hlaws d Hd))
    as [Hadd|[Hd0 Hadd0]].
  - rewrite Hadd. split; [done | by left].
  - split; [by apply (zero_finite A Hlaws) | by right].
Qed.

(** C10, as the code has it: when [gamma * lmbda] is a zero, for every
    [td_delta] whose entries are finite and are kept by the conversion
    to the tensor's format, the sequence returned has the length of
    [td_delta] and equals it entry by entry. *)
Theorem compute_advantage_zero_discount gamma lmbda td_delta :
  zero_laws A →
  mul gamma lmbda ≈ zero →
  Forall (λ d, finite d ∧ tensor_float d ≈ d) td_delta →
  Forall2 num_eq (compute_advantage gamma lmbda td_delta) td_delta.
Proof.
  intros Hlaws Hzero Hin. rewrite compute_advantage_from.
  assert (Forall finite td_delta) as Hfin
    by (eapply Forall_impl; [exact Hin | by intros d [? _]]).
  pose proof (advantage_from_zero_discount gamma lmbda td_delta Hlaws Hzero
                Hfin) as Hraw.
  apply Forall2_fmap_l.
  induction Hraw as [|a d later rest [_ Ha] _ IH]; [constructor|].
  apply Forall_cons in Hin as [[_ Hkeep] Hin].
  apply Forall_cons in Hfin as [_ Hfin].
  constructor; [|by apply IH].
  destruct Ha as [->|[Hd0 Ha0]]; [done|].
  apply (zeros_equal A Hlaws); [|done].
  by apply (tensor_float_zero A Hlaws).
Qed.
End ComputeAdvantageFacts.

(** ** The zeros of IEEE arithmetic *)

Lemma ieee_eq_zero (x : SpecFloat.spec_float) :
  x ≈ zero ↔ ∃ s, x = SpecFloat.S754_zero s.
Proof.
  unfold num_eq. simpl. split.
  - destruct x as [s|s| |s m e]; [by exists s|..];
      try destruct s; done.
  - by intros [s ->].
Qed.

(** IEEE arithmetic, in every format, treats the zeros as the proofs
    above need it to. *)
Lemma ieee_zero_laws (prec emax : Z) :
  @zero_laws SpecFloat.spec_float (ieee_Num prec emax) binary64_TensorFloat
    ieee_NumTests.
Proof.
  split.
  - done.
  - intros x y [s ->]%ieee_eq_zero [s' ->]%ieee_eq_zero. done.
  - by intros x [s ->]%ieee_eq_zero.
  - intros [s|s| |s m e] Hx; try done.
    unfold num_eq. simpl. unfold SpecFloat.SFeqb. simpl.
    rewrite Z.compare_refl, Pos.compare_cont_refl. by destruct s.
  - intros c x [s ->]%ieee_eq_zero Hx. apply ieee_eq_zero.
    destruct x as [s'|s'| |s' m e]; try done; by eexists.
  - intros z d [s ->]%ieee_eq_zero Hd.
    destruct d as [s'|s'| |s' m e]; [right|by left|done|by left].
    split; [done|]. apply ieee_eq_zero. simpl.
    destruct s, s'; by eexists.
  - by intros x [s ->]%ieee_eq_zero.
Qed.

(** So does exact arithmetic. *)
Lemma Qc_zero_laws : zero_laws Qc.
Proof.
  assert (∀ x y : Qc, x ≈ y ↔ x = y) as Heq
    by (intros x y; apply bool_decide_eq_true).
  split.
  - by apply Heq.
  - intros x y ->%Heq ->%Heq. by apply Heq.
  - done.
  - intros x _. by apply Heq.
  - intros c x ->%Heq _. apply Heq. apply Qcmult_0_l.
  - intros z d ->%Heq _. left. apply Qcplus_0_l.
  - done.
Qed.

(** In exact arithmetic a zero [gamma * lmbda] makes the estimates the
    TD errors themselves, whatever they are. *)
Lemma zero_discount_is_identity_exact (gamma lmbda : Qc)
    (td_delta : list Qc) :
  mul gamma lmbda = zero →
  compute_advantage gamma lmbda td_delta = td_delta.
Proof.
  intros Hzero. rewrite compute_advantage_from.
  unfold tensor_float, Qc_TensorFloat. rewrite list_fmap_id.
  assert (∀ x y : Qc, x ≈ y → x = y) as Heq
    by (intros x y; apply bool_decide_eq_true).
  pose proof (advantage_from_zero_discount gamma lmbda td_delta Qc_zero_laws)
    as Hraw.
  induction Hraw as [|a d later rest [_ Ha] _ IH].
  - done.
  - f_equal; [|done]. destruct Ha as [->|[Hd Ha]]; [done|].
    apply Heq in Hd, Ha. congruence.
  - by apply bool_decide_eq_true.
  - by apply Forall_true.
Qed.

(** An infinite discount: the one TD error 1.0 gives NaN, not 1.0. *)
Lemma compute_advantage_infinite_discount :
  compute_advantage float_inf float_one [float_one] = [float_nan].
Proof. reflexivity. Qed.

(** The same happens while the discount is finite, with an infinite
    weight. *)
Lemma compute_advantage_infinite_weight :
  compute_advantage float_half float_inf [float_one] = [float_nan].
Proof. reflexivity. Qed.

(** A TD error that binary32 does not hold is rounded: 0.1 comes back
    as the binary32 number next to it. *)
Lemma compute_advantage_rounds_to_binary32 :
  compute_advantage float_half float_one [float_tenth]
  = [SpecFloat.S754_finite false 7205759511166976 (-56)].
Proof. reflexivity. Qed.

(** With the discount zero an infinite TD error spoils the estimate of
    the step before it: the errors 1.0 and infinity give NaN and
    infinity. *)
Lemma zero_discount_infinite_error_gives_nan :
  mul (A:=SpecFloat.spec_float) zero float_one = zero ∧
  compute_advantage zero float_one [float_one; float_inf]
  = [float_nan; float_inf].
Proof. split; reflexivity. Qed.

(** C2 on three TD errors with discount 1/2 and weight 1. *)
Lemma compute_advantage_recurrence_witness :
  zero_laws SpecFloat.spec_float ∧
  mul (mul float_half float_one) zero ≈ zero ∧
  last example_float_td_delta = Some float_half ∧
  float_half ≈ float_half ∧ tensor_float float_half ≈ float_half ∧
  length (compute_advantage float_half float_one example_float_td_delta)
  = length example_float_td_delta ∧
  ∃ o, last (compute_advantage float_half float_one example_float_td_delta)
       = Some o ∧ o ≈ float_half.
Proof.
  pose proof (compute_advantage_recurrence float_half float_one
                example_float_td_delta (ieee_zero_laws 53 1024))
    as (Hlen & _ & Hlast & _).
  split; [exact (ieee_zero_laws 53 1024)|].
  split; [reflexivity|]. split; [reflexivity|].
  split; [reflexivity|]. split; [reflexivity|].
  split; [exact Hlen|].
  apply Hlast; reflexivity.
Defined.

(** C10 with discount zero on the three TD errors, the second of which
    is the negative zero. *)
Lemma compute_advantage_zero_discount_witness :
  zero_laws SpecFloat.spec_float ∧
  mul zero float_tenth ≈ zero ∧
  Forall (λ d, finite d ∧ tensor_float d ≈ d) example_float_td_delta ∧
  Forall2 num_eq (compute_advantage zero float_tenth example_float_td_delta)
    example_float_td_delta.
Proof.
  assert (Forall (λ d : SpecFloat.spec_float, finite d ∧ tensor_float d ≈ d)
            example_float_td_delta) as Hin
    by (repeat constructor).
  split; [exact (ieee_zero_laws 53 1024)|].
  split; [reflexivity|]. split; [exact Hin|].
  apply (compute_advantage_zero_discount zero float_tenth
           example_float_td_delta (ieee_zero_laws 53 1024));
    [reflexivity | exact Hin].
Defined.

(** ** Slices and running sums *)

Section NumpyFacts.
Context {A : Type} `{!Num A}.
Import Numpy.

Lemma clip_inside (n : nat) (i : Z) :
  0 ≤ i ≤ Z.of_nat n → clip n i = Z.to_nat i.
Proof.
  intros Hi. unfold clip. destruct (Z.ltb_spec i 0); lia.
Qed.

Lemma clip_from_end (n : nat) (i : Z) :
  i < 0 → 0 ≤ i + Z.of_nat n → clip n i = Z.to_nat (i + Z.of_nat n).
Proof.
  intros Hi Hn. unfold clip. destruct (Z.ltb_spec i 0); lia.
Qed.

(** [x[::2]] holds the items of the even positions. *)
Lemma slice_step2_lookup {X : Type} (x : list X) (i : nat) :
  slice_step2 x !! i = x !! (2 * i)%nat.
Proof.
  revert x. induction i as [|i IH]; intros [|v [|v' x]]; try done.
  replace (2 * S i)%nat with (S (S (2 * i))) by lia.
  simpl. apply IH.
Qed.

Lemma length_slice_step2_even {X : Type} (h : nat) (x : list X) :
  length x = (2 * h)%nat → length (slice_step2 x) = h.
Proof.
  revert x. induction h as [|h IH]; intros [|v [|v' x]] Hx;
    simpl in *; try done; try lia.
  f_equal. apply IH. lia.
Qed.

Lemma length_slice_step2 {X : Type} (x : list X) :
  length (slice_step2 x) = Nat.div2 (S (length x)).
Proof.
  remember (length x) as n eqn:Hn. revert x Hn.
  induction n as [n IH] using lt_wf_ind.
  intros [|v [|v' x]] Hn; simpl in *; subst; try done.
  f_equal. apply (IH (length x)); [lia | done].
Qed.

Lemma length_cumsum_from (acc : A) (x : list A) :
  length (cumsum_from acc x) = length x.
Proof.
  revert acc. induction x as [|v x IH]; intros acc; simpl; [done|].
  by rewrite IH.
Qed.

Lemma length_cumsum (x : list A) : length (cumsum x) = length x.
Proof. destruct x; simpl; [done|]. by rewrite length_cumsum_from. Qed.

Lemma cumsum_from_lookup (acc : A) (x : list A) (k : nat) :
  (k < length x)%nat →
  cumsum_from acc x !! k = Some (foldl add acc (take (S k) x)).
Proof.
  revert acc k. induction x as [|v x IH]; intros acc k Hk; simpl in *; [lia|].
  destruct k as [|k]; simpl.
  - by destruct x.
  - apply IH. lia.
Qed.

(** Entry [k] of [np.cumsum(x)] is the sum of the first [k+1] items. *)
Lemma cumsum_lookup (x : list A) (k : nat) :
  (k < length x)%nat →
  cumsum x !! k = Some (spec_cumulative (S k) x).
Proof.
  destruct x as [|v x]; simpl; [lia|]. intros Hk.
  unfold spec_cumulative. simpl.
  destruct k as [|k]; simpl; [by destruct x|].
  apply cumsum_from_lookup. lia.
Qed.

(** Entry [k] of [np.cumsum(np.insert(a, 0, 0))] is the running sum,
    started at zero, of the first [k] items. *)
Lemma cumsum_insert_lookup (a : list A) (k : nat) :
  (k ≤ length a)%nat →
  cumsum (insert a 0 zero) !! k = Some (spec_running k a).
Proof.
  intros Hk. unfold insert, spec_running. rewrite take_0, drop_0. simpl.
  destruct k as [|k]; simpl; [done|].
  apply cumsum_from_lookup. lia.
Qed.

Lemma length_cumsum_insert (a : list A) :
  length (cumsum (insert a 0 zero)) = S (length a).
Proof.
  rewrite length_cumsum. unfold insert. by rewrite take_0, drop_0.
Qed.

Lemma spec_cumulative_take (m k : nat) (a : list A) :
  (m ≤ k)%nat → spec_cumulative m (take k a) = spec_cumulative m a.
Proof.
  intros Hle. unfold spec_cumulative.
  by rewrite take_take, Nat.min_l.
Qed.

Lemma elementwise_same_length {X Y Z' : Type} (f : X → Y → Z')
    (x : list X) (y : list Y) :
  length x = length y → elementwise f x y = Ok (zip_with f x y).
Proof.
  intros Hl. unfold elementwise. by rewrite Hl, Nat.eqb_refl.
Qed.

Lemma elementwise_mismatch {X Y Z' : Type} (f : X → Y → Z')
    (x : list X) (y : list Y) :
  length x ≠ length y → length x ≠ 1%nat → length y ≠ 1%nat →
  elementwise f x y = Raise ValueError.
Proof.
  intros Hxy Hx Hy. unfold elementwise.
  destruct (Nat.eqb_spec (length x) (length y)); [done|].
  by destruct x as [|? [|? ?]], y as [|? [|? ?]].
Qed.

Lemma elementwise_stretch_right {X Y Z' : Type} (f : X → Y → Z')
    (x : list X) (v : Y) :
  elementwise f x [v] = Ok ((λ u, f u v) <$> x).
Proof.
  unfold elementwise.
  destruct (Nat.eqb_spec (length x) (length [v])) as [Hl|_];
    by destruct x as [|? [|? ?]].
Qed.

Lemma half_of_odd (m : Z) : (2 * m + 1 - 1) `div` 2 = m.
Proof.
  replace (2 * m + 1 - 1) with (m * 2) by lia. by apply Z.div_mul.
Qed.

Lemma half_below_even (m : Z) : (2 * m - 1) `div` 2 = m - 1.
Proof.
  replace (2 * m - 1) with (1 + (m - 1) * 2) by lia.
  rewrite Z.div_add by done. change (1 `div` 2) with 0. lia.
Qed.

Lemma length_arange_odd (w : Z) :
  length (arange 1 (w - 1) 2) = Z.to_nat ((w - 1) `div` 2).
Proof.
  unfold arange. rewrite length_fmap, length_seq.
  f_equal. f_equal. lia.
Qed.

Lemma arange_odd_lookup (w : Z) (i : nat) :
  (i < Z.to_nat ((w - 1) `div` 2))%nat →
  arange 1 (w - 1) 2 !! i = Some (2 * Z.of_nat i + 1).
Proof.
  intros Hi. unfold arange. rewrite list_lookup_fmap.
  replace (w - 1 - 1 + 2 - 1) with (w - 1) by lia.
  rewrite lookup_seq_lt by done. simpl. f_equal. lia.
Qed.

Lemma length_spec_edge (h : nat) (a : list A) : length (spec_edge h a) = h.
Proof. unfold spec_edge. by rewrite length_fmap, length_seq. Qed.

Lemma length_spec_middle (a : list A) (w : Z) :
  length (spec_middle a w) = (length a + 1 - Z.to_nat w)%nat.
Proof. unfold spec_middle. by rewrite length_fmap, length_seq. Qed.

(** The edge computation on the first [w-1] items of a sequence that
    has them, for a window size that is odd or 2: no broadcasting
    failure, and the outputs are the cumulative sums of the first 1,
    3, 5, ... items over these counts. *)
Lemma edge_outputs (b : list A) (w : Z) :
  Z.odd w = true ∨ w = 2 →
  1 ≤ w ≤ Z.of_nat (length b) + 1 →
  div_ints (slice_step2 (cumsum (take (Z.to_nat (w - 1)) b)))
           (arange 1 (w - 1) 2)
  = Ok (spec_edge (Z.to_nat ((w - 1) `div` 2)) b).
Proof.
  intros Hw Hrange. unfold div_ints.
  set (h := Z.to_nat ((w - 1) `div` 2)).
  destruct Hw as [Hodd | ->].
  - assert (w - 1 = 2 * ((w - 1) `div` 2)) as Heven.
    { rewrite Z.odd_spec in Hodd. destruct Hodd as [m ->].
      rewrite half_of_odd. lia. }
    assert (length (slice_step2 (cumsum (take (Z.to_nat (w - 1)) b))) = h)
      as Hlen.
    { apply length_slice_step2_even.
      rewrite length_cumsum, length_take_le by lia. lia. }
    rewrite elementwise_same_length
      by (rewrite Hlen, length_arange_odd; done).
    f_equal. apply (list_eq_same_length _ _ h).
    + apply length_spec_edge.
    + rewrite length_zip_with_l_eq; [done|].
      by rewrite Hlen, length_arange_odd.
    + intros i x y Hi Hx Hy.
      apply lookup_zip_with_Some in Hx as (u & k & -> & Hu & Hk).
      rewrite arange_odd_lookup in Hk by done. injection Hk as <-.
      rewrite slice_step2_lookup, cumsum_lookup in Hu
        by (rewrite length_take_le by lia; lia).
      injection Hu as <-.
      unfold spec_edge in Hy. rewrite list_lookup_fmap in Hy.
      rewrite lookup_seq_lt in Hy by done. simpl in Hy. injection Hy as <-.
      rewrite spec_cumulative_take by lia.
      do 2 f_equal. lia.
  - subst h. simpl in *.
    destruct b as [|v b]; simpl in *; [lia|]. done.
Qed.
End NumpyFacts.

(** ** The smoothing *)

Section MovingAverageFacts.
Context {A : Type} `{!Num A}.
Import Numpy.

(** [moving_average] puts its three parts together, when none of
    them fails. *)
Lemma moving_average_of_parts (a : list A) (window_size : Z)
    (diff b e : list A) :
  elementwise sub (slice_from (cumsum (insert a 0 zero)) window_size)
    (slice_to (cumsum (insert a 0 zero)) (- window_size)) = Ok diff →
  div_ints (slice_step2 (cumsum (slice_to a (window_size - 1))))
    (arange 1 (window_size - 1) 2) = Ok b →
  div_ints (slice_step2 (cumsum (slice_rev_to a (- window_size))))
    (arange 1 (window_size - 1) 2) = Ok e →
  moving_average a window_size
  = Ok (b ++ div_scalar diff window_size ++ reverse e).
Proof.
  intros Hdiff Hb He. unfold moving_average. by rewrite Hdiff, Hb, He.
Qed.

(** The interior: the two slices of the running sums have the same
    length, and their differences over the window size are the
    interior outputs. *)
Lemma interior_outputs (a : list A) (window_size : Z) :
  1 ≤ window_size ≤ Z.of_nat (length a) + 1 →
  ∃ diff,
    elementwise sub (slice_from (cumsum (insert a 0 zero)) window_size)
      (slice_to (cumsum (insert a 0 zero)) (- window_size)) = Ok diff ∧
    div_scalar diff window_size = spec_middle a window_size.
Proof.
  intros Hrange.
  set (cs := cumsum (insert a 0 zero)).
  assert (length cs = S (length a)) as Hcs by apply length_cumsum_insert.
  unfold slice_from, slice_to.
  rewrite Hcs, (clip_inside (S (length a)) window_size) by lia.
  rewrite (clip_from_end (S (length a)) (- window_size)) by lia.
  eexists. split.
  { apply elementwise_same_length.
    rewrite length_drop, length_take_le by lia. lia. }
  apply (list_eq_same_length _ _ (length a + 1 - Z.to_nat window_size)).
  - apply length_spec_middle.
  - unfold div_scalar. rewrite length_fmap, length_zip_with_l_eq.
    + rewrite length_drop. lia.
    + rewrite length_drop, length_take_le by lia. lia.
  - intros j x y Hj Hx Hy.
    unfold div_scalar in Hx. rewrite list_lookup_fmap in Hx.
    destruct (zip_with sub _ _ !! j) as [z|] eqn:Hz; [|done].
    simpl in Hx. injection Hx as <-.
    apply lookup_zip_with_Some in Hz as (u & v & -> & Hu & Hv).
    rewrite lookup_drop in Hu. rewrite lookup_take_lt in Hv by lia.
    subst cs. rewrite cumsum_insert_lookup in Hu, Hv by lia.
    injection Hu as <-. injection Hv as <-.
    unfold spec_middle in Hy. rewrite list_lookup_fmap in Hy.
    rewrite lookup_seq_lt in Hy by done. simpl in Hy. injection Hy as <-.
    by rewrite (Nat.add_comm j).
Qed.

(** The leading edge, from the slice [a[:window_size-1]]. *)
Lemma leading_outputs (a : list A) (window_size : Z) :
  Z.odd window_size = true ∨ window_size = 2 →
  1 ≤ window_size ≤ Z.of_nat (length a) + 1 →
  div_ints (slice_step2 (cumsum (slice_to a (window_size - 1))))
    (arange 1 (window_size - 1) 2)
  = Ok (spec_edge (Z.to_nat ((window_size - 1) `div` 2)) a).
Proof.
  intros Hw Hrange. unfold slice_to.
  rewrite (clip_inside (length a) (window_size - 1)) by lia.
  by apply edge_outputs.
Qed.

(** The trailing edge, from the slice [a[:-window_size:-1]], which
    holds the last [window_size - 1] items, last one first. *)
Lemma trailing_outputs (a : list A) (window_size : Z) :
  Z.odd window_size = true ∨ window_size = 2 →
  1 ≤ window_size ≤ Z.of_nat (length a) + 1 →
  div_ints (slice_step2 (cumsum (slice_rev_to a (- window_size))))
    (arange 1 (window_size - 1) 2)
  = Ok (spec_edge (Z.to_nat ((window_size - 1) `div` 2)) (reverse a)).
Proof.
  intros Hw Hrange.
  assert (slice_rev_to a (- window_size)
          = take (Z.to_nat (window_size - 1)) (reverse a)) as ->.
  { unfold slice_rev_to. rewrite take_reverse.
    destruct (Z.ltb_spec (- window_size) 0); [|lia].
    do 2 f_equal. lia. }
  apply edge_outputs; [done | by rewrite length_reverse].
Qed.

(** In exact arithmetic the difference of two running sums is the sum
    of the items between them: an interior output is the mean of a
    window of [w] items. *)
Lemma foldl_add_from (acc : A) (x : list A) :
  (∀ u v t, add (add u v) t = add u (add v t)) →
  (∀ u, add zero u = u) → (∀ u, add u zero = u) →
  foldl add acc x = add acc (foldl add zero x).
Proof.
  intros Hassoc Hzero_l Hzero_r. revert acc.
  induction x as [|v x IH]; intros acc; simpl; [by rewrite Hzero_r|].
  rewrite (IH (add acc v)), (IH (add zero v)), Hzero_l. apply Hassoc.
Qed.

Lemma running_sum_difference (a : list A) (j w : nat) :
  (∀ u v t, add (add u v) t = add u (add v t)) →
  (∀ u, add zero u = u) → (∀ u, add u zero = u) →
  (∀ u v, sub (add u v) u = v) →
  sub (spec_running (j + w) a) (spec_running j a)
  = foldl add zero (take w (drop j a)).
Proof.
  intros Hassoc Hzero_l Hzero_r Hsub. unfold spec_running.
  rewrite <- take_take_drop, foldl_app.
  rewrite (foldl_add_from (foldl add zero (take j a))) by done.
  apply Hsub.
Qed.

(** An even window size within the sequence never gives a result as
    long as the sequence: one entry is missing for 2, there is one too
    many for 4, and from 6 on the division of the edge sums by the odd
    counts cannot be broadcast. *)
Lemma moving_average_even_window (a : list A) (window_size : Z) :
  Z.even window_size = true →
  2 ≤ window_size ≤ Z.of_nat (length a) →
  (window_size = 2 →
   ∃ out, moving_average a window_size = Ok out ∧
          S (length out) = length a) ∧
  (window_size = 4 →
   ∃ out, moving_average a window_size = Ok out ∧
          length out = S (length a)) ∧
  (6 ≤ window_size → moving_average a window_size = Raise ValueError).
Proof.
  intros Heven Hrange.
  destruct (interior_outputs a window_size) as (diff & Hdiff & Hmid); [lia|].
  assert (length (div_scalar diff window_size)
          = (length a + 1 - Z.to_nat window_size)%nat) as Hldiff
    by (rewrite Hmid; apply length_spec_middle).
  assert (slice_to a (window_size - 1)
          = take (Z.to_nat (window_size - 1)) a) as Hto.
  { unfold slice_to. by rewrite clip_inside by lia. }
  assert (slice_rev_to a (- window_size)
          = take (Z.to_nat (window_size - 1)) (reverse a)) as Hrev.
  { unfold slice_rev_to. rewrite take_reverse.
    destruct (Z.ltb_spec (- window_size) 0); [|lia].
    do 2 f_equal. lia. }
  split; [|split].
  - intros ->. eexists. split.
    + apply (moving_average_of_parts a 2 diff); [exact Hdiff | |].
      * apply leading_outputs; [by right | lia].
      * apply trailing_outputs; [by right | lia].
    + rewrite !length_app, length_reverse, !length_spec_edge, Hldiff.
      change (Z.to_nat ((2 - 1) `div` 2)) with 0%nat. lia.
  - intros ->. eexists. split.
    + apply (moving_average_of_parts a 4 diff); [exact Hdiff | |].
      * change (arange 1 (4 - 1) 2) with [1].
        apply elementwise_stretch_right.
      * change (arange 1 (4 - 1) 2) with [1].
        apply elementwise_stretch_right.
    + rewrite Hto, Hrev.
      rewrite !length_app, length_reverse, !length_fmap, !length_slice_step2,
        !length_cumsum, !length_take_le, Hldiff
        by (rewrite ?length_reverse; lia).
      change (Nat.div2 (S (Z.to_nat (4 - 1)))) with 2%nat. lia.
  - intros Hsix. unfold moving_average. rewrite Hdiff. simpl.
    rewrite Hto. unfold div_ints.
    rewrite Z.even_spec in Heven. destruct Heven as [m ->].
    rewrite (elementwise_mismatch _
               (slice_step2 (cumsum (take (Z.to_nat (2 * m - 1)) a))));
      [done | | |];
      rewrite ?length_slice_step2, ?length_cumsum, ?length_take_le,
        ?length_arange_odd, ?half_below_even by lia.
    + replace (S (Z.to_nat (2 * m - 1))) with (2 * Z.to_nat m)%nat by lia.
      rewrite Nat.div2_double. lia.
    + replace (S (Z.to_nat (2 * m - 1))) with (2 * Z.to_nat m)%nat by lia.
      rewrite Nat.div2_double. lia.
    + lia.
Qed.

(** C4, as the code has it: for every sequence [values] and every odd
    [window_size] with [2 ≤ window_size ≤ length(values)],
    [moving_average] returns a sequence as long as [values]. *)
Theorem moving_average_odd_window_length (values : list A) (window_size : Z) :
  Z.odd window_size = true →
  2 ≤ window_size ≤ Z.of_nat (length values) →
  ∃ out, moving_average values window_size = Ok out ∧
         length out = length values.
Proof.
  intros Hodd Hrange.
  destruct (interior_outputs values window_size) as (diff & Hdiff & Hmid);
    [lia|].
  eexists. split.
  - apply (moving_average_of_parts values window_size diff); [exact Hdiff | |].
    + apply leading_outputs; [by left | lia].
    + apply trailing_outputs; [by left | lia].
  - rewrite !length_app, length_reverse, !length_spec_edge, Hmid,
      length_spec_middle.
    rewrite Z.odd_spec in Hodd. destruct Hodd as [m ->].
    rewrite half_of_odd. lia.
Qed.

(** C7, as the code has it: for every sequence [a] and every
    [window_size] that is odd, or 2, with
    [1 ≤ window_size ≤ length(a) + 1], [moving_average] returns, in
    this order, the leading edge outputs (the cumulative sums of the
    first 1, 3, 5, ... items of [a], each over its odd count, one
    output per odd count below [window_size]), the interior outputs
    (the differences of the running sums [window_size] apart, over
    [window_size]), and the trailing edge outputs (the mirror of the
    leading formula on the reversed sequence). *)
Theorem moving_average_edges_and_interior (a : list A) (window_size : Z) :
  Z.odd window_size = true ∨ window_size = 2 →
  1 ≤ window_size ≤ Z.of_nat (length a) + 1 →
  moving_average a window_size
  = Ok (spec_edge (Z.to_nat ((window_size - 1) `div` 2)) a
        ++ spec_middle a window_size
        ++ reverse (spec_edge (Z.to_nat ((window_size - 1) `div` 2))
                      (reverse a))).
Proof.
  intros Hw Hrange.
  destruct (interior_outputs a window_size Hrange) as (diff & Hdiff & <-).
  apply moving_average_of_parts.
  - exact Hdiff.
  - by apply leading_outputs.
  - by apply trailing_outputs.
Qed.
End MovingAverageFacts.

(** With window size 2 on two values the result has one entry. *)
Lemma moving_average_window_two_is_shorter :
  2 ≤ 2 ≤ Z.of_nat (length [1%Q; 2%Q]) ∧
  moving_average [1%Q; 2%Q] 2 = Ok [3 # 2] ∧
  length [3 # 2] ≠ length [1%Q; 2%Q].
Proof. split; [simpl; lia|]. split; [reflexivity | discriminate]. Qed.

Lemma moving_average_odd_window_length_witness :
  Z.odd 5 = true ∧ 2 ≤ 5 ≤ Z.of_nat (length example_ramp) ∧
  ∃ out, moving_average example_ramp 5 = Ok out ∧
         length out = length example_ramp.
Proof.
  split; [reflexivity|]. split; [simpl; lia|].
  apply (moving_average_odd_window_length example_ramp 5);
    [reflexivity | simpl; lia].
Defined.

(** With window size 6 the division of the three edge sums by the two
    odd counts fails; with window size 4 it is broadcast, and the second
    edge output is a sum of three items that is not divided by 3: no
    number of edge outputs makes the formula fit. *)
Lemma moving_average_even_window_breaks_formula :
  moving_average example_ramp 6 = Raise ValueError ∧
  moving_average example_ones 4 = Ok [1%Q; 3%Q; 4 # 4; 3%Q; 1%Q] ∧
  ∀ h : nat,
    ¬ Forall2 Qeq (spec_moving_average_with h example_ones 4)
                  [1%Q; 3%Q; 4 # 4; 3%Q; 1%Q].
Proof.
  split; [reflexivity|]. split; [reflexivity|].
  intros h Hf. pose proof (Forall2_length _ _ _ Hf) as Hl.
  unfold spec_moving_average_with in Hl.
  rewrite !length_app, length_reverse, !length_spec_edge,
    length_spec_middle in Hl.
  simpl in Hl. assert (h = 2%nat) as -> by lia.
  vm_compute in Hf.
  apply Forall2_cons_1 in Hf as [_ Hf].
  apply Forall2_cons_1 in Hf as [Hbad _]. discriminate Hbad.
Qed.

Lemma moving_average_edges_and_interior_witness :
  (Z.odd 5 = true ∨ 5 = 2) ∧ 1 ≤ 5 ≤ Z.of_nat (length example_ramp) + 1 ∧
  moving_average example_ramp 5
  = Ok (spec_edge 2 example_ramp ++ spec_middle example_ramp 5
        ++ reverse (spec_edge 2 (reverse example_ramp))).
Proof.
  split; [by left|]. split; [simpl; lia|].
  apply (moving_average_edges_and_interior example_ramp 5);
    [by left | simpl; lia].
Defined.

(** ** The training drivers *)

Section LoopFacts.
Context {X : Type}.
Implicit Types (body : X → run X) (x : X).

(** A loop whose body, when it returns, adds [c] to a measure adds
    [n * c] to it over [n] passes. *)
Lemma for_range_count (measure : X → nat) (c : nat) body :
  (∀ x x', body x = Some (Ok x') → measure x' = (measure x + c)%nat) →
  ∀ (n : nat) x x',
    for_range n body x = Some (Ok x') →
    measure x' = (measure x + n * c)%nat.
Proof.
  intros Hbody n. induction n as [|n IH]; intros x x' Hrun; simpl in *.
  - injection Hrun as <-. lia.
  - destruct (body x) as [[x1|e]|] eqn:Hx; simpl in Hrun; try done.
    apply Hbody in Hx. apply IH in Hrun. lia.
Qed.

End LoopFacts.

Section DriverFacts.
Context {E Ag State Action Reward : Type}.
Context `{!Num Reward} `{!Environment E State Action Reward}
        `{!Agent Ag State Action Reward}.




Context {G : Type} `{!RandomSource G}.

Lemma off_policy_episode_count (fuel : nat) (minimal_size batch_size : Z)
    (st st' : E * Ag * ReplayBuffer.t State Action Reward bool * G
              * list Reward) :
  off_policy_episode fuel minimal_size batch_size st = Some (Ok st') →
  length st'.2 = (length st.2 + 1)%nat.
Proof.
  destruct st as [[[[env agent] rb] g] return_list].
  unfold off_policy_episode.
  destruct (env_reset env) as [state env1].
  destruct (off_policy_steps _ _ _ _ _ _ _ _ _)
    as [[[[[[env2 agent2] rb2] g2] ret]|e]|];
    simpl; intros Hrun; try done.
  injection Hrun as <-. simpl. by rewrite length_app.
Qed.

(** The list returned by the off-policy driver has ten times
    [int(num_episodes/10)] entries. *)
Lemma train_off_policy_agent_length (fuel : nat) (env env' : E)
    (agent agent' : Ag) (num_episodes : Z)
    (rb rb' : ReplayBuffer.t State Action Reward bool)
    (minimal_size batch_size : Z) (g g' : G) (return_list : list Reward) :
  train_off_policy_agent fuel env agent num_episodes rb
    minimal_size batch_size g
  = Some (Ok (return_list, env', agent', rb', g')) →
  length return_list = (10 * episodes_per_iteration num_episodes)%nat.
Proof.
  unfold train_off_policy_agent.
  destruct (for_range 10 _ _) as [[[[[[env1 agent1] rb1] g1] rl]|e]|] eqn:Hrun;
    simpl; intros Hret; try done.
  injection Hret as <- <- <- <- <-.
  apply (for_range_count (λ st, length st.2)
           (episodes_per_iteration num_episodes)) in Hrun; [simpl in Hrun; lia|].
  intros x x' Hx.
  apply (for_range_count (λ st, length st.2) 1) in Hx; [lia|].
  intros y y'. apply off_policy_episode_count.
Qed.

(** C8 fails on the code: asked for 5 episodes, both drivers run no
    episode at all and return the empty list, whatever the
    environment, the agent, the buffer and the generator are. *)
Theorem train_agents_five_episodes_run_none (fuel : nat) (env : E)
    (agent : Ag) (rb : ReplayBuffer.t State Action Reward bool)
    (minimal_size batch_size : Z) (g : G) :
  train_on_policy_agent fuel env agent 5 = Some (Ok ([], env, agent)) ∧
  train_off_policy_agent fuel env agent 5 rb minimal_size batch_size g
  = Some (Ok ([], env, agent, rb, g)).
Proof. split; reflexivity. Qed.
End DriverFacts.

(** Asked for 25 episodes of the three-step environment, both drivers
    return the returns of 20 episodes. *)
Lemma train_agents_twenty_five_episodes_run_twenty :
  (train_on_policy_agent 3 (Countdown 0) tt 25
   = Some (Ok (replicate 20 (3 # 1), Countdown 0, tt))) ∧
  (∃ rb g,
     train_off_policy_agent 3 (Countdown 0) tt 25 example_empty_buffer 10 4
       (Lcg 7)
     = Some (Ok (replicate 20 (3 # 1), Countdown 0, tt, rb, g))).
Proof. split; [vm_compute; reflexivity|]. do 2 eexists. vm_compute. reflexivity. Qed.

(** ** More on the replay buffer *)

Section ReplayBufferMore.
Context {State Action Reward Done : Type}.
Implicit Types (rb : ReplayBuffer.t State Action Reward Done).
Implicit Types (ts : list (ReplayBuffer.Transition State Action Reward Done)).

(** X1: for every capacity from zero to [sys.maxsize] and every run
    of [add] calls on a buffer built with it, [size()] is the smaller
    of the number of calls and the capacity, and the buffer holds that
    many of the latest transitions, in insertion order; as long as
    the calls do not outnumber the capacity nothing is dropped. *)
Theorem replay_buffer_holds_latest (capacity : Z) ts :
  0 ≤ capacity ≤ ssize_max →
  ∃ rb0,
    ReplayBuffer.__init__ capacity = Ok rb0 ∧
    (ReplayBuffer.size (ReplayBuffer.add_all rb0 ts)).1
    = Z.min (Z.of_nat (length ts)) capacity ∧
    ReplayBuffer.contents (ReplayBuffer.add_all rb0 ts)
    = drop (length ts - Z.to_nat capacity) ts ∧
    (Z.of_nat (length ts) ≤ capacity →
     ReplayBuffer.contents (ReplayBuffer.add_all rb0 ts) = ts).
Proof.
  intros Hcap. eexists. split; [by apply init_ok|].
  pose proof (contents_add_all_init (State:=State) (Action:=Action)
                (Reward:=Reward) (Done:=Done) (Z.to_nat capacity) ts) as Hc.
  rewrite Z2Nat.id in Hc by lia.
  split; [|split].
  - unfold ReplayBuffer.size, Deque.len; simpl.
    change (Deque.items (ReplayBuffer.buffer ?x)) with (ReplayBuffer.contents x).
    rewrite Hc, length_drop. lia.
  - exact Hc.
  - intros Hle. rewrite Hc.
    replace (length ts - Z.to_nat capacity)%nat with 0%nat by lia. done.
Qed.

Lemma drop_1_snoc {X : Type} (l : list X) (x : X) :
  l ≠ [] → drop 1 (l ++ [x]) = drop 1 l ++ [x].
Proof. by destruct l. Qed.

(** X2: on a buffer in any state that respects a positive bound,
    [add] leaves the transition it was given as the newest one, keeps
    the older ones in order behind it (all of them, or all but the
    oldest when the buffer was full), and [size()] grows by one
    without passing the bound. *)
Theorem add_puts_newest_last rb s a r s' d :
  0 < Deque.maxlen (ReplayBuffer.buffer rb) →
  (ReplayBuffer.size rb).1 ≤ Deque.maxlen (ReplayBuffer.buffer rb) →
  let rb' := ReplayBuffer.add rb s a r s' d in
  last (ReplayBuffer.contents rb') = Some (s, a, r, s', d) ∧
  (ReplayBuffer.size rb').1
  = Z.min ((ReplayBuffer.size rb).1 + 1)
          (Deque.maxlen (ReplayBuffer.buffer rb)) ∧
  Deque.maxlen (ReplayBuffer.buffer rb')
  = Deque.maxlen (ReplayBuffer.buffer rb) ∧
  ((ReplayBuffer.size rb).1 < Deque.maxlen (ReplayBuffer.buffer rb) →
   ReplayBuffer.contents rb' = ReplayBuffer.contents rb ++ [(s, a, r, s', d)]) ∧
  ((ReplayBuffer.size rb).1 = Deque.maxlen (ReplayBuffer.buffer rb) →
   ReplayBuffer.contents rb'
   = drop 1 (ReplayBuffer.contents rb) ++ [(s, a, r, s', d)]).
Proof.
  unfold ReplayBuffer.size, Deque.len, ReplayBuffer.contents, ReplayBuffer.add.
  cbn [ReplayBuffer.buffer fst]. intros Hpos Hbound.
  rewrite maxlen_append.
  destruct (decide (Z.of_nat (length (Deque.items (ReplayBuffer.buffer rb)))
                    < Deque.maxlen (ReplayBuffer.buffer rb))) as [Hroom|Hfull].
  - rewrite items_append_room by done.
    rewrite last_snoc, length_app. simpl.
    repeat split; [lia | lia].
  - rewrite items_append_full by lia.
    rewrite drop_1_snoc by (intros Hnil; rewrite Hnil in *; simpl in *; lia).
    rewrite last_snoc, length_app, length_drop. simpl.
    repeat split; [lia | lia].
Qed.

Context {G : Type} `{!RandomSource G}.

(** X3: [sample(batch_size)] returns a batch exactly when
    [0 < batch_size ≤ size()]; for every other [batch_size], zero and
    the negative ones included, it raises [ValueError] and leaves
    buffer and generator as they were.  The generator is taken to draw
    in range and, for a buffer above the library's [setsize], to leave
    no slot out within the budget of redraws. *)
Theorem sample_succeeds_iff (fuel : nat) rb (batch_size : Z) (g : G) :
  randbelow_in_range G →
  (Random.setsize batch_size < (ReplayBuffer.size rb).1 →
   randbelow_covers G (Z.to_nat (ReplayBuffer.size rb).1) fuel) →
  ((∃ batch g',
      ReplayBuffer.sample fuel rb batch_size g = (Some (Ok batch), rb, g'))
   ↔ 0 < batch_size ≤ (ReplayBuffer.size rb).1) ∧
  (¬ 0 < batch_size ≤ (ReplayBuffer.size rb).1 →
   ReplayBuffer.sample fuel rb batch_size g
   = (Some (Raise ValueError), rb, g)).
Proof.
  intros Hrand Hcover.
  assert (¬ 0 < batch_size ≤ (ReplayBuffer.size rb).1 →
          ReplayBuffer.sample fuel rb batch_size g
          = (Some (Raise ValueError), rb, g))
    as Hfail.
  { unfold ReplayBuffer.size, Deque.len, ReplayBuffer.sample, Random.sample.
    simpl. intros Hout.
    destruct (decide (batch_size = 0)) as [->|Hne].
    - rewrite bool_decide_eq_true_2 by lia.
      by destruct (bool_decide _).
    - rewrite bool_decide_eq_false_2 by lia. done. }
  split; [|exact Hfail]. split.
  - intros (batch & g' & Hok).
    destruct (decide (0 < batch_size ≤ (ReplayBuffer.size rb).1)); [done|].
    rewrite Hfail in Hok by done. discriminate.
  - intros Hin.
    unfold ReplayBuffer.size, Deque.len in Hin, Hcover.
    cbn [fst] in Hin, Hcover. rewrite Nat2Z.id in Hcover.
    destruct (sample_positions fuel (Deque.items (ReplayBuffer.buffer rb))
                batch_size g Hrand Hcover)
      as (idx & chosen & g' & Hsample & Hlen & _ & Hchosen); [lia|].
    unfold ReplayBuffer.sample. rewrite Hsample. simpl.
    rewrite unzip5_nonempty; [by do 2 eexists|].
    intros ->. simpl in Hchosen. symmetry in Hchosen.
    apply fmap_nil_inv in Hchosen. subst idx. simpl in Hlen. lia.
Qed.

Lemma omap_id_Some {X : Type} (l : list X) : omap id (Some <$> l) = l.
Proof. induction l as [|x l IH]; csimpl; [done|]. by f_equal. Qed.

(** Pairwise different positions, as many as the population has, are
    all its positions: the items at them are the population in some
    order. *)
Lemma all_positions_Permutation {X : Type} (population chosen : list X)
    (idx : list nat) :
  NoDup idx → length idx = length population →
  Some <$> chosen = (population !!.) <$> idx →
  chosen ≡ₚ population.
Proof.
  intros Hnd Hlen Hchosen.
  assert (idx ≡ₚ seq 0 (length population)) as Hperm.
  { apply submseteq_length_Permutation; [|by rewrite length_seq, Hlen].
    apply NoDup_submseteq; [done|]. intros i Hi.
    apply list_elem_of_lookup in Hi as [p Hp].
    assert (((population !!.) <$> idx) !! p = Some (population !! i)) as Hl
      by (by rewrite list_lookup_fmap, Hp).
    rewrite <- Hchosen, list_lookup_fmap in Hl.
    destruct (chosen !! p) as [x|]; [|done]. simpl in Hl.
    injection Hl as Hl. symmetry in Hl. apply lookup_lt_Some in Hl.
    apply elem_of_seq. lia. }
  assert (Some <$> population
          = (population !!.) <$> seq 0 (length population)) as Hpop.
  { apply list_eq. intros p. rewrite !list_lookup_fmap.
    destruct (decide (p < length population)%nat) as [Hp|Hp].
    - rewrite lookup_seq_lt by done. simpl.
      destruct (lookup_lt_is_Some_2 population p Hp) as [v Hv].
      by rewrite Hv.
    - rewrite lookup_seq_ge by lia.
      rewrite lookup_ge_None_2 by lia. done. }
  rewrite <- (omap_id_Some chosen), <- (omap_id_Some population).
  by rewrite Hchosen, Hpop, Hperm.
Qed.

(** X4: asked for as many transitions as a non-empty buffer holds,
    [sample] returns all of them, each once, in some order: the five
    collections are the components of a rearrangement of the buffer's
    contents. *)
Theorem sample_whole_buffer_is_shuffle (fuel : nat) rb (g : G) :
  randbelow_in_range G →
  0 < (ReplayBuffer.size rb).1 →
  ∃ chosen g',
    chosen ≡ₚ ReplayBuffer.contents rb ∧
    ReplayBuffer.sample fuel rb (ReplayBuffer.size rb).1 g
    = (Some (Ok ((λ x, x.1.1.1.1) <$> chosen, (λ x, x.1.1.1.2) <$> chosen,
                 (λ x, x.1.1.2) <$> chosen, (λ x, x.1.2) <$> chosen,
                 (λ x, x.2) <$> chosen)), rb, g').
Proof.
  intros Hrand Hpos.
  unfold ReplayBuffer.size, Deque.len in *. simpl in *.
  destruct (sample_positions fuel (Deque.items (ReplayBuffer.buffer rb))
              (Z.of_nat (length (Deque.items (ReplayBuffer.buffer rb)))) g Hrand)
    as (idx & chosen & g' & Hsample & Hlen & Hnd & Hchosen);
    [intros Hset; pose proof (setsize_ge (Z.of_nat (length (Deque.items
       (ReplayBuffer.buffer rb))))); lia | lia |].
  rewrite Nat2Z.id in Hlen.
  exists chosen, g'. split.
  - by apply (all_positions_Permutation _ _ idx).
  - unfold ReplayBuffer.sample. rewrite Hsample. simpl.
    rewrite unzip5_nonempty; [done|].
    intros ->. simpl in Hchosen. symmetry in Hchosen.
    apply fmap_nil_inv in Hchosen. subst idx. simpl in Hlen. lia.
Qed.
End ReplayBufferMore.

(** ** More on the advantage estimates *)

Section ComputeAdvantageMore.
Context {A : Type} `{!Num A} `{!TensorFloat A}.
Implicit Types (gamma lmbda : A) (td_delta : list A).

Lemma advantage_from_drop gamma lmbda td_delta (i : nat) :
  advantage_from gamma lmbda (drop i td_delta)
  = drop i (advantage_from gamma lmbda td_delta).
Proof.
  revert i. induction td_delta as [|delta rest IH]; intros [|i]; try done.
  simpl. apply IH.
Qed.

(** X5: the estimates of the steps from [i] on are computed from the
    TD errors from [i] on alone: dropping the first [i] errors from
    the input drops the first [i] estimates from the output and
    changes no other. *)
Theorem compute_advantage_of_suffix gamma lmbda td_delta (i : nat) :
  compute_advantage gamma lmbda (drop i td_delta)
  = drop i (compute_advantage gamma lmbda td_delta).
Proof.
  rewrite !compute_advantage_from, advantage_from_drop.
  apply fmap_drop.
Qed.
End ComputeAdvantageMore.

(** ** What an episode hands on *)

Section EpisodeFacts.
Context {E Ag State Action Reward : Type}.
Context `{!Num Reward} `{!Environment E State Action Reward}
        `{!Agent Ag State Action Reward}.

(** What the on-policy loop appends to the five lists it is given,
    and what it adds to the return. *)
Lemma on_policy_steps_trace (fuel : nat) (env env' : E) (agent agent' : Ag)
    (state : State) (ret0 ret : Reward)
    (td0 td : transition_dict State Action Reward) :
  on_policy_steps fuel env agent state ret0 td0
  = Some (Ok (env', agent', ret, td)) →
  ∃ (sts : list State) (acts : list Action) (nsts : list State)
    (rws : list Reward),
    (0 < length sts ≤ fuel)%nat ∧
    length acts = length sts ∧ length nsts = length sts ∧
    length rws = length sts ∧
    states td = states td0 ++ sts ∧ actions td = actions td0 ++ acts ∧
    next_states td = next_states td0 ++ nsts ∧
    rewards td = rewards td0 ++ rws ∧
    dones td = dones td0 ++ replicate (length sts - 1) false ++ [true] ∧
    ret = foldl add ret0 rws ∧
    sts = take (length sts) (state :: nsts).
Proof.
  revert env agent state ret0 td0.
  induction fuel as [|fuel IH]; intros env agent state ret0 td0; [done|].
  simpl.
  destruct (take_action state agent) as [action agent1].
  destruct (env_step action env) as [[[next_state reward] done] env1].
  destruct done.
  - intros [= <- <- <- <-]. simpl.
    exists [state], [action], [next_state], [reward]. simpl.
    repeat split; lia.
  - intros Hrun. apply IH in Hrun
      as (sts & acts & nsts & rws & Hn & Ha & Hns & Hr
          & Hst & Hac & Hnx & Hrw & Hdn & Hret & Hchain).
    simpl in *.
    exists (state :: sts), (action :: acts), (next_state :: nsts),
      (reward :: rws). simpl.
    rewrite <- !app_assoc in *. simpl in *.
    repeat split; try done; try lia.
    + rewrite Hdn. do 2 f_equal.
      destruct (length sts) as [|k]; [lia|]. simpl.
      by rewrite Nat.sub_0_r.
    + f_equal. rewrite Hchain at 1.
      destruct (length sts) as [|k]; [lia|]. done.
Qed.


(** X9: in the batch of an on-policy episode the done flag of the
    last step is true and every earlier one is false, the first
    state is the one the episode started from, and the state of
    every later step is the next state of the step before it. *)
Theorem on_policy_batch_is_a_chain (fuel : nat) (env env' : E)
    (agent agent' : Ag) (state : State) (ret : Reward)
    (td : transition_dict State Action Reward) :
  on_policy_steps fuel env agent state zero (TransitionDict [] [] [] [] [])
  = Some (Ok (env', agent', ret, td)) →
  dones td = replicate (length (states td) - 1) false ++ [true] ∧
  states td = take (length (states td)) (state :: next_states td).
Proof.
  intros Hrun. apply on_policy_steps_trace in Hrun
    as (sts & acts & nsts & rws & Hn & Ha & Hns & Hr
        & Hst & Hac & Hnx & Hrw & Hdn & Hret & Hchain).
  destruct td as [td_s td_a td_ns td_r td_d]. simpl in *. by subst.
Qed.

Context {G : Type} `{!RandomSource G}.
Implicit Types (rb : ReplayBuffer.t State Action Reward bool).

(** X10: when an off-policy episode ends within its step budget
    without an exception, the buffer it leaves is the one it was
    given with the transitions of the episode added in step order,
    one per step; the episode's return is the sum of their rewards,
    only the last of them is flagged done, the first starts from the
    episode's initial state and each later one from the next state
    of the one before. *)
Theorem off_policy_episode_fills_buffer (fuel : nat)
    (minimal_size batch_size : Z) (env env' : E) (agent agent' : Ag)
    rb rb' (g g' : G) (state : State) (ret0 ret : Reward) :
  off_policy_steps fuel minimal_size batch_size env agent rb g state ret0
  = Some (Ok (env', agent', rb', g', ret)) →
  ∃ ts : list (ReplayBuffer.Transition State Action Reward bool),
    (0 < length ts ≤ fuel)%nat ∧
    rb' = ReplayBuffer.add_all rb ts ∧
    ret = foldl add ret0 ((λ t, t.1.1.2) <$> ts) ∧
    (λ t, t.2) <$> ts = replicate (length ts - 1) false ++ [true] ∧
    (λ t, t.1.1.1.1) <$> ts
    = take (length ts) (state :: ((λ t, t.1.2) <$> ts)).
Proof.
  revert env agent rb g state ret0.
  induction fuel as [|fuel IH]; intros env agent rb g state ret0; [done|].
  simpl.
  destruct (take_action state agent) as [action agent1].
  destruct (env_step action env) as [[[next_state reward] done] env1].
  set (rb1 := ReplayBuffer.add rb state action reward next_state done).
  assert (∀ agent2 g2,
    (if done
     then Some (Ok (env1, agent2, rb1, g2, add ret0 reward))
     else off_policy_steps fuel minimal_size batch_size env1 agent2 rb1 g2
            next_state (add ret0 reward))
    = Some (Ok (env', agent', rb', g', ret)) →
    ∃ ts : list (ReplayBuffer.Transition State Action Reward bool),
      (0 < length ts ≤ S fuel)%nat ∧
      rb' = ReplayBuffer.add_all rb ts ∧
      ret = foldl add ret0 ((λ t, t.1.1.2) <$> ts) ∧
      (λ t, t.2) <$> ts = replicate (length ts - 1) false ++ [true] ∧
      (λ t, t.1.1.1.1) <$> ts
      = take (length ts) (state :: ((λ t, t.1.2) <$> ts))) as Hcont.
  { intros agent2 g2. destruct done.
    - intros [= <- <- <- <- <-].
      exists [(state, action, reward, next_state, true)]. simpl.
      repeat split; lia.
    - intros Hrun. apply IH in Hrun
        as (ts & Hn & -> & -> & Hdn & Hchain).
      exists ((state, action, reward, next_state, false) :: ts).
      rewrite add_all_cons. csimpl.
      repeat split; try done; try lia.
      + rewrite Hdn, Nat.sub_0_r.
        destruct (length ts) as [|k]; [lia|]. simpl.
        by rewrite Nat.sub_0_r.
      + f_equal. rewrite Hchain at 1.
        destruct (length ts) as [|k]; [lia|]. done. }
  destruct (minimal_size <? _).
  - pose proof (sample_keeps_buffer (S fuel) rb1 batch_size g) as Hkeep.
    destruct (ReplayBuffer.sample (S fuel) rb1 batch_size g)
      as [[[[batch|e]|] rb2] g2];
      simpl in Hkeep; subst rb2; [|intros [=]|intros [=]].
    destruct batch as [[[[b_s b_a] b_r] b_ns] b_d]. apply Hcont.
  - apply Hcont.
Qed.
End EpisodeFacts.

(** ** Configurations under which the off-policy driver cannot learn *)

Section LoopOutcome.
Context {X : Type}.

End LoopOutcome.

Section OffPolicyConfiguration.
Context {E Ag State Action Reward : Type}.
Context `{!Num Reward} `{!Environment E State Action Reward}
        `{!Agent Ag State Action Reward}.
Context {G : Type} `{!RandomSource G}.
Implicit Types (rb : ReplayBuffer.t State Action Reward bool).







End OffPolicyConfiguration.

Section OnPolicyCount.
Context {E Ag State Action Reward : Type}.
Context `{!Num Reward} `{!Environment E State Action Reward}
        `{!Agent Ag State Action Reward}.

End OnPolicyCount.

(** ** The properties above on concrete inputs *)

(** X1 on a buffer of capacity 4 that is given three transitions. *)
Lemma replay_buffer_holds_latest_witness :
  0 ≤ 4 ≤ ssize_max ∧
  ∃ rb0 : ReplayBuffer.t Z Z Z bool,
    ReplayBuffer.__init__ 4 = Ok rb0 ∧
    (ReplayBuffer.size (ReplayBuffer.add_all rb0 example_transitions)).1 = 3 ∧
    ReplayBuffer.contents (ReplayBuffer.add_all rb0 example_transitions)
    = example_transitions.
Proof.
  split; [unfold ssize_max; lia|].
  destruct (replay_buffer_holds_latest 4 example_transitions)
    as (rb0 & Hinit & Hsize & _ & Hall); [unfold ssize_max; lia|].
  exists rb0. split; [exact Hinit|]. split; [exact Hsize|].
  apply Hall. simpl. lia.
Defined.

(** X2 on the buffer that holds two transitions of its four. *)
Lemma add_puts_newest_last_witness :
  0 < Deque.maxlen (ReplayBuffer.buffer example_buffer) ∧
  (ReplayBuffer.size example_buffer).1
  ≤ Deque.maxlen (ReplayBuffer.buffer example_buffer) ∧
  last (ReplayBuffer.contents
          (ReplayBuffer.add example_buffer 13 14 15 16 true))
  = Some (13, 14, 15, 16, true).
Proof.
  split; [reflexivity|]. split; [vm_compute; discriminate|].
  apply (add_puts_newest_last example_buffer 13 14 15 16 true);
    [reflexivity | vm_compute; discriminate].
Defined.

(** X3 on the buffer of thirty transitions, above [setsize]: a request
    for three of them is served. *)
Lemma sample_succeeds_iff_witness :
  randbelow_in_range counter ∧
  (Random.setsize 3 < (ReplayBuffer.size example_long_buffer).1 →
   randbelow_covers counter
     (Z.to_nat (ReplayBuffer.size example_long_buffer).1) 30) ∧
  0 < 3 ≤ (ReplayBuffer.size example_long_buffer).1 ∧
  ∃ batch g',
    ReplayBuffer.sample 30 example_long_buffer 3 (Counter 7)
    = (Some (Ok batch), example_long_buffer, g').
Proof.
  split; [exact counter_in_range|].
  split; [intros _; exact (counter_covers 30)|].
  split; [split; [lia | vm_compute; discriminate]|].
  apply (proj1 (sample_succeeds_iff 30 example_long_buffer 3 (Counter 7)
                  counter_in_range (λ _, counter_covers 30))).
  split; [lia | vm_compute; discriminate].
Defined.

(** X4 on the buffer of two transitions. *)
Lemma sample_whole_buffer_is_shuffle_witness :
  randbelow_in_range lcg ∧ 0 < (ReplayBuffer.size example_buffer).1 ∧
  ∃ chosen g',
    chosen ≡ₚ ReplayBuffer.contents example_buffer ∧
    ReplayBuffer.sample 0 example_buffer (ReplayBuffer.size example_buffer).1
      (Lcg 7)
    = (Some (Ok ((λ x, x.1.1.1.1) <$> chosen, (λ x, x.1.1.1.2) <$> chosen,
                 (λ x, x.1.1.2) <$> chosen, (λ x, x.1.2) <$> chosen,
                 (λ x, x.2) <$> chosen)), example_buffer, g').
Proof.
  split; [exact lcg_in_range|]. split; [reflexivity|].
  apply (sample_whole_buffer_is_shuffle 0 example_buffer (Lcg 7));
    [exact lcg_in_range | reflexivity].
Defined.


(** X9 on the same episode. *)
Lemma on_policy_batch_is_a_chain_witness :
  on_policy_steps 3 (Countdown 3) () 0%nat zero (TransitionDict [] [] [] [] [])
  = Some (Ok (Countdown 0, (), 3%Q, example_episode_batch)) ∧
  dones example_episode_batch
  = replicate (length (states example_episode_batch) - 1) false ++ [true] ∧
  states example_episode_batch
  = take (length (states example_episode_batch))
      (0%nat :: next_states example_episode_batch).
Proof.
  split; [reflexivity|].
  apply (on_policy_batch_is_a_chain 3 (Countdown 3) (Countdown 0) () ()
           0%nat 3%Q example_episode_batch).
  reflexivity.
Defined.

(** X10 on an episode of the three-step environment, from the empty
    buffer of capacity 100. *)
Lemma off_policy_episode_fills_buffer_witness :
  off_policy_steps 3 10 4 (Countdown 3) () example_empty_buffer (Lcg 7)
    0%nat zero
  = Some (Ok (Countdown 0, (),
              ReplayBuffer.Build (Deque.Build 100 example_episode_transitions),
              Lcg 7, 3%Q)) ∧
  ∃ ts : list (ReplayBuffer.Transition nat unit Q bool),
    (0 < length ts ≤ 3)%nat ∧
    ReplayBuffer.Build (Deque.Build 100 example_episode_transitions)
    = ReplayBuffer.add_all example_empty_buffer ts ∧
    3%Q = foldl add zero ((λ t, t.1.1.2) <$> ts) ∧
    (λ t, t.2) <$> ts = replicate (length ts - 1) false ++ [true] ∧
    (λ t, t.1.1.1.1) <$> ts
    = take (length ts) (0%nat :: ((λ t, t.1.2) <$> ts)).
Proof.
  split; [reflexivity|].
  apply (off_policy_episode_fills_buffer 3 10 4 (Countdown 3) (Countdown 0)
           () () example_empty_buffer _ (Lcg 7) (Lcg 7) 0%nat zero 3%Q).
  reflexivity.
Defined.




